(** * godoc/parser.go: build-tag annotation of identifiers

    A shallow embedding of [src/godoc/parser.go]: the [//line] scrubbing
    pass, the build-tag extractor, the batch file loader and the mapper
    from identifiers to build tags, followed by the properties of the
    specification that were checked against them. *)

From Stdlib Require Import ZArith Strings.Byte Strings.String Strings.Ascii.
From stdpp Require Import base list strings gmap fin_maps.

Local Open Scope string_scope.
Local Open Scope list_scope.
Local Open Scope Z_scope.

(** ** Byte buffers *)

(** Go's [[]byte] is a list of bytes; a Go [string] is a Rocq [string]. *)
Abbreviation bytes := (list Byte.byte).

Definition bytes_of (s : string) : bytes := String.list_byte_of_string s.

Definition newline : Byte.byte := Byte.x0a.
Definition space : Byte.byte := Byte.x20.

Fixpoint bytes_HasPrefix (s prefix : bytes) : bool :=
  match prefix, s with
  | [], _ => true
  | _ :: _, [] => false
  | p :: prefix', b :: s' => Byte.eqb p b && bytes_HasPrefix s' prefix'
  end.

(** [bytes.Index(s, sep)]: the index of the first instance of [sep] in
    [s], or [-1] when [sep] is not present. *)
Fixpoint bytes_Index (s sep : bytes) : Z :=
  if bytes_HasPrefix s sep then 0
  else match s with
       | [] => -1
       | _ :: s' =>
           let r := bytes_Index s' sep in
           if r <? 0 then -1 else 1 + r
       end.

(** [strings.Contains(s, substr)] is [strings.Index(s, substr) >= 0]. *)
Definition strings_Contains (s substr : string) : bool :=
  0 <=? bytes_Index (bytes_of s) (bytes_of substr).

(** ** SourceSanitizer: [replaceLinePrefixCommentsWithBlankLine] *)

Module Sanitizer.

Definition linePrefix : bytes := bytes_of "//line ".

(** The loop re-slices [src = src[i:]] while writing through the shared
    backing array.  The backing array is [buf]; the current slice is
    the part of [buf] from offset [off] on, so that [src[j]] is
    [buf[off + j]]. *)

(** [for i < len(src) && src[i] != '\n' { src[i] = ' '; i++ }] *)
Fixpoint blankOut (fuel : nat) (buf : bytes) (off i : nat) : bytes * nat :=
  match fuel with
  | O => (buf, i)
  | S fuel' =>
      match buf !! (off + i)%nat with
      | None => (buf, i)
      | Some b =>
          if Byte.eqb b newline then (buf, i)
          else blankOut fuel' (<[(off + i)%nat := space]> buf) off (S i)
      end
  end.

Definition atLineStart (buf : bytes) (off i : nat) : bool :=
  (i =? 0)%nat
  || match buf !! (off + i - 1)%nat with
     | Some b => Byte.eqb b newline
     | None => false
     end.

(** One pass of the outer [for] per unit of fuel. *)
Fixpoint scrub (fuel : nat) (buf : bytes) (off : nat) : bytes :=
  match fuel with
  | O => buf
  | S fuel' =>
      let i := bytes_Index (drop off buf) linePrefix in
      if i <? 0 then buf
      else
        let i := Z.to_nat i in
        if atLineStart buf off i then
          let '(buf', i') := blankOut (length buf) buf off i in
          scrub fuel' buf' (off + i')%nat
        else
          scrub fuel' buf (off + (i + length linePrefix))%nat
  end.

(** Every pass moves the slice forward by at least one byte, so
    [S (length src)] passes are enough (see [scrub_fuel]). *)
Definition replaceLinePrefixCommentsWithBlankLine (src : bytes) : bytes :=
  scrub (S (length src)) src 0.

End Sanitizer.

(** ** Outcomes of fallible code *)

(** A Go call either returns normally, returns a non-nil [error] (kept as
    its message, [err.Error()]), or panics at run time. *)
Inductive result (A : Type) : Type :=
| Ok (a : A)
| Err (e : string)
| Panic.
Arguments Ok {A} a.
Arguments Err {A} e.
Arguments Panic {A}.

Definition rbind {A B} (r : result A) (k : A -> result B) : result B :=
  match r with
  | Ok a => k a
  | Err e => Err e
  | Panic => Panic
  end.

(** Left-to-right loop over a slice whose body may fail. *)
Fixpoint foldlM {A B} (f : A -> B -> result A) (a : A) (l : list B) : result A :=
  match l with
  | [] => Ok a
  | x :: l' => rbind (f a x) (fun a' => foldlM f a' l')
  end.

(** Code that reads files: the outcome together with the paths handed to
    [vfs.ReadFile], in the order of the calls. *)
Definition IO (A : Type) : Type := list string * result A.

Definition ioret {A} (a : A) : IO A := ([], Ok a).

Definition iobind {A B} (m : IO A) (k : A -> IO B) : IO B :=
  match m with
  | (tr, Ok a) => let '(tr', r) := k a in (tr ++ tr', r)
  | (tr, Err e) => (tr, Err e)
  | (tr, Panic) => (tr, Panic)
  end.

Definition iolift {A} (r : result A) : IO A := ([], r).

(** [if err != nil { return nil, wrap(err) }] *)
Definition iowrap {A} (wrap : string -> string) (m : IO A) : IO A :=
  match m with
  | (tr, Err e) => (tr, Err (wrap e))
  | _ => m
  end.

Definition reads {A} (m : IO A) : list string := fst m.
Definition outcome {A} (m : IO A) : result A := snd m.

Declare Scope io_scope.
Delimit Scope io_scope with io.
Notation "x <- m ;; k" := (iobind m (fun x => k))
  (at level 100, m at next level, right associativity) : io_scope.

(** ** The syntax tree of [go/ast], as far as the code looks at it *)

Module ast.

Record Ident := { Name : string }.

(** The method [String] of an identifier; the pointer is never nil in a
    parsed tree. *)
Definition Ident_String (id : Ident) : string := Name id.

Record Comment := { Text : string }.
Record CommentGroup := { CommentGroup_List : list Comment }.

(** Expressions that stand for a receiver type. *)
Inductive Expr :=
| EIdent (id : Ident)
| StarExpr (X : Expr)
| SelectorExpr (X : Expr) (Sel : Ident)
| BadExpr.

Record Field := { Field_Names : list Ident; Field_Type : Expr }.
Record FieldList := { FieldList_List : list Field }.

Record ImportSpec := { ImportSpec_Path : string }.
Record ValueSpec := { ValueSpec_Names : list Ident }.
Record TypeSpec := { TypeSpec_Name : Ident }.

Inductive Spec :=
| SImport (s : ImportSpec)
| SValue (s : ValueSpec)
| SType (s : TypeSpec).

(** [Recv] is a pointer: [None] is nil. *)
Record FuncDecl := { Recv : option FieldList; FuncDecl_Name : Ident }.
Record GenDecl := { Specs : list Spec }.

Inductive Decl :=
| DBad
| DGen (d : GenDecl)
| DFunc (d : FuncDecl).

Record File := { Comments : list CommentGroup; Decls : list Decl }.

End ast.

Module build.
Record Context := { BuildTags : list string }.
End build.

(** ** What the code takes from other packages *)

(** Library functions that [parser.go] calls and does not define. *)
Class GoLib := {
  (** [buildutil.TagsFlag.Set(s)]: the value of the flag afterwards. *)
  TagsFlag_Set : string -> list string;
  (** [format.Node] applied to an expression: the text written, or
      [None] when it returns an error. *)
  format_Node : ast.Expr -> option string;
  (** [parser.ParseFile(fset, filename, src, parser.ParseComments)]. *)
  parser_ParseFile : string -> bytes -> result ast.File;
  (** [path.Join] of two elements. *)
  path_Join : string -> string -> string;
  filepath_Base : string -> string;
  (** [strconv.Quote], the rendering of the verb [%q]. *)
  strconv_Quote : string -> string
}.

(** A [Corpus] holds the file system; [vfs.ReadFile(c.fs, name)] is
    [fs c name]. *)
Record Corpus := { fs : string -> result bytes }.

Definition vfs_ReadFile (c : Corpus) (filename : string) : IO bytes :=
  ([filename], fs c filename).

(** The order in which [range] visits a Go map is not specified and may
    change from one run to the next.  A [Schedule] fixes, for one run, the
    order chosen at each of the three [range] statements over a map. *)
Record Schedule := {
  order_files : list (string * ast.File) -> list (string * ast.File);
  order_tags : list (string * list string) -> list (string * list string);
  order_batch : string -> list (string * ast.File) -> list (string * ast.File)
}.

(** Every entry of the map is visited exactly once. *)
Definition admissible (s : Schedule) : Prop :=
  (forall l, order_files s l ≡ₚ l)
  /\ (forall l, order_tags s l ≡ₚ l)
  /\ (forall t l, order_batch s t l ≡ₚ l).

(** [%v] of a [[]string]. *)
Definition fmt_strings (l : list string) : string :=
  "[" +:+ String.concat " " l +:+ "]".

Section Godoc.
Context `{GoLib}.

(** *** TagExtractor: [findBuildTags] *)

Definition matchAllowed (t : string) (tags allowedBuildTags : list string)
  : list string :=
  foldl (fun tags abt => if String.eqb t abt then tags ++ [t] else tags)
        tags allowedBuildTags.

Definition scanLine (allowedBuildTags : list string) (tags : list string)
    (l : ast.Comment) : list string :=
  if negb (strings_Contains (ast.Text l) "+build") then tags
  else
    let tf := TagsFlag_Set (ast.Text l) in
    foldl (fun tags t => matchAllowed t tags allowedBuildTags) tags tf.

Definition findBuildTags (file : ast.File) (allowedBuildTags : list string)
  : list string * bool :=
  let tags :=
    foldl (fun tags c =>
             foldl (scanLine allowedBuildTags) tags (ast.CommentGroup_List c))
          [] (ast.Comments file) in
  (tags, bool_decide (0 < length tags)%nat).

(** *** [getReceiverType] *)

Definition getReceiverType (decl : ast.FuncDecl) : result string :=
  match ast.Recv decl with
  | None => Ok ""
  | Some recv =>
      match ast.FieldList_List recv !! 0%nat with
      | None => Panic (* index out of range *)
      | Some field =>
          match format_Node (ast.Field_Type field) with
          | None => Ok ""
          | Some buf => Ok buf
          end
      end
  end.

(** *** FileLoader: [parseFile] and [parseFiles] *)

Definition parseFile (c : Corpus) (filename : string) : IO ast.File :=
  (src <- vfs_ReadFile c filename ;;
   let src := Sanitizer.replaceLinePrefixCommentsWithBlankLine src in
   iolift (parser_ParseFile filename src))%io.

Fixpoint parseFiles_from (c : Corpus) (relpath abspath : string)
    (localnames : list string) (files : gmap string ast.File)
  : IO (gmap string ast.File) :=
  match localnames with
  | [] => ioret files
  | f :: localnames' =>
      let absname := path_Join abspath f in
      (file <- parseFile c absname ;;
       parseFiles_from c relpath abspath localnames'
                       (<[path_Join relpath f := file]> files))%io
  end.

Definition parseFiles (c : Corpus) (relpath abspath : string)
    (localnames : list string) : IO (gmap string ast.File) :=
  parseFiles_from c relpath abspath localnames ∅.

(** *** IdentifierTagMapper: [mapIdentifierToBuildTag] *)

(** The closure [appendName]; the map it captures is passed in and out. *)
Definition appendName (typeName receiverType tagName : string)
    (typesWithTags : gmap string string) : gmap string string :=
  let buf := "" in
  let buf := if negb (String.eqb receiverType "")
             then buf +:+ receiverType +:+ "." else buf in
  let buf := buf +:+ typeName in
  let key := buf in
  let tns := default "" (typesWithTags !! key) in
  let tns := if String.eqb tns "" then tagName
             else tns +:+ ", " +:+ tagName in
  <[key := tns]> typesWithTags.

Definition walkSpec (tagName : string) (typesWithTags : gmap string string)
    (spec : ast.Spec) : gmap string string :=
  match spec with
  | ast.SType spec =>
      appendName (ast.Ident_String (ast.TypeSpec_Name spec)) "" tagName
                 typesWithTags
  | ast.SValue spec =>
      foldl (fun m id => appendName (ast.Name id) "" tagName m)
            typesWithTags (ast.ValueSpec_Names spec)
  | ast.SImport _ => typesWithTags
  end.

Definition walkDecl (tagName : string) (typesWithTags : gmap string string)
    (decl : ast.Decl) : result (gmap string string) :=
  match decl with
  | ast.DFunc decl =>
      rbind (getReceiverType decl) (fun receiverType =>
      Ok (appendName (ast.Ident_String (ast.FuncDecl_Name decl))
                     receiverType tagName typesWithTags))
  | ast.DGen decl => Ok (foldl (walkSpec tagName) typesWithTags (ast.Specs decl))
  | ast.DBad => Ok typesWithTags
  end.

Definition walkFile (tagName : string) (typesWithTags : gmap string string)
    (fileAst : ast.File) : result (gmap string string) :=
  foldlM (walkDecl tagName) typesWithTags (ast.Decls fileAst).

(** [for _, fileAst := range astMap], in the order of the schedule. *)
Definition walkBatch (tagName : string) (typesWithTags : gmap string string)
    (astMap : list (string * ast.File)) : result (gmap string string) :=
  foldlM (fun m entry => walkFile tagName m entry.2) typesWithTags astMap.

(** The body of the first loop, for one entry of [files]. *)
Definition classifyFile (allowedBuildTags : list string)
    (tagToFiles : gmap string (list string)) (entry : string * ast.File)
  : gmap string (list string) :=
  let '(fName, fAst) := entry in
  let '(bts, ok) := findBuildTags fAst allowedBuildTags in
  if ok then
    foldl (fun tagToFiles bt =>
             let f := default [] (tagToFiles !! bt) in
             let f := f ++ [filepath_Base fName] in
             <[bt := f]> tagToFiles)
          tagToFiles bts
  else tagToFiles.

Definition classify (s : Schedule) (files : gmap string ast.File)
    (allowedBuildTags : list string) : gmap string (list string) :=
  foldl (classifyFile allowedBuildTags) ∅ (order_files s (map_to_list files)).

(** [fmt.Errorf("%s in %q with files: %v", err.Error(), abspath, fileNames)] *)
Definition wrapError (abspath : string) (fileNames : list string)
    (err : string) : string :=
  err +:+ " in " +:+ strconv_Quote abspath +:+ " with files: "
      +:+ fmt_strings fileNames.

(** The second loop, over the entries of [tagToFiles] in the order of
    the schedule. *)
Fixpoint tagLoop (s : Schedule) (c : Corpus) (relpath abspath : string)
    (tags : list (string * list string))
    (typesWithTags : gmap string string) : IO (gmap string string) :=
  match tags with
  | [] => ioret typesWithTags
  | (tagName, fileNames) :: tags' =>
      (astMap <- iowrap (wrapError abspath fileNames)
                        (parseFiles c relpath abspath fileNames) ;;
       typesWithTags' <-
         iolift (walkBatch tagName typesWithTags
                           (order_batch s tagName (map_to_list astMap))) ;;
       tagLoop s c relpath abspath tags' typesWithTags')%io
  end.

Definition mapIdentifierToBuildTag (s : Schedule) (c : Corpus)
    (files : gmap string ast.File) (relpath abspath : string)
    (ctxt : build.Context) : IO (gmap string string) :=
  let allowedBuildTags := build.BuildTags ctxt in
  let tagToFiles := classify s files allowedBuildTags in
  let typesWithTags : gmap string string := ∅ in
  if (size tagToFiles =? 0)%nat then ioret typesWithTags
  else tagLoop s c relpath abspath (order_tags s (map_to_list tagToFiles))
               typesWithTags.

End Godoc.

(** ** Notions of the specification *)

(** The number of times [t] is listed in [l]. *)
Definition occurrences (t : string) (l : list string) : nat :=
  length (filter (λ x, x = t) l).

(** The entries of a rendered tag string: its pieces between the
    separators [", "]. *)
Fixpoint renderedTags_from (s cur : string) : list string :=
  match s with
  | EmptyString => [cur]
  | String a s' =>
      match s' with
      | String b s'' =>
          if Ascii.eqb a "," && Ascii.eqb b " "
          then cur :: renderedTags_from s'' ""
          else renderedTags_from s' (cur +:+ String a "")
      | EmptyString => renderedTags_from s' (cur +:+ String a "")
      end
  end.

Definition renderedTags (tns : string) : list string :=
  renderedTags_from tns "".

(** A tag in which the separator does not occur. *)
Fixpoint hasSeparator (s : string) : bool :=
  match s with
  | EmptyString => false
  | String a s' =>
      match s' with
      | String b _ => (Ascii.eqb a "," && Ascii.eqb b " ") || hasSeparator s'
      | EmptyString => false
      end
  end.

Definition plainTag (t : string) : Prop := hasSeparator t = false.

(** The outer loop with its exit made visible: [Some] buffer when the
    [break] is reached within the given number of passes, [None] when the
    passes run out while the loop is still going. *)
Fixpoint scrubBreak (fuel : nat) (buf : bytes) (off : nat) : option bytes :=
  match fuel with
  | O => None
  | S fuel' =>
      let i := bytes_Index (drop off buf) Sanitizer.linePrefix in
      if i <? 0 then Some buf (* break *)
      else
        let i := Z.to_nat i in
        if Sanitizer.atLineStart buf off i then
          let '(buf', i') := Sanitizer.blankOut (length buf) buf off i in
          scrubBreak fuel' buf' (off + i')%nat
        else
          scrubBreak fuel' buf (off + (i + length Sanitizer.linePrefix))%nat
  end.

(** The number of bytes of [s] before its first newline. *)
Fixpoint lineLen (s : bytes) : nat :=
  match s with
  | [] => 0%nat
  | b :: s' => if Byte.eqb b newline then 0%nat else S (lineLen s')
  end.

(** A buffer as its lines, without their newlines. *)
Fixpoint unlines (lines : list bytes) : bytes :=
  match lines with
  | [] => []
  | l :: ls =>
      match ls with
      | [] => l
      | _ :: _ => l ++ newline :: unlines ls
      end
  end.

(** A line that starts with the marker, blanked. *)
Definition blankLine (l : bytes) : bytes :=
  if bytes_HasPrefix l Sanitizer.linePrefix
  then replicate (length l) space else l.

(** A line without newline in which the marker is at the start or does
    not occur. *)
Definition markerAtStartOnly (l : bytes) : Prop :=
  (newline ∉ l)
  ∧ (bytes_HasPrefix l Sanitizer.linePrefix = true
     ∨ bytes_Index l Sanitizer.linePrefix < 0).

(** What a pass may do to a byte: keep it, or turn a byte other than a
    newline into a space. *)
Definition blanked (src dst : bytes) : Prop :=
  length dst = length src
  ∧ ∀ p b, src !! p = Some b →
           dst !! p = Some b ∨ (b ≠ newline ∧ dst !! p = Some space).

Section Notions.
Context `{GoLib}.

(** The raw tokens of the directive lines of a file, in order of
    appearance. *)
Definition directiveTokens (file : ast.File) : list string :=
  flat_map (λ c,
    flat_map (λ l, if strings_Contains (ast.Text l) "+build"
                   then TagsFlag_Set (ast.Text l) else [])
             (ast.CommentGroup_List c))
    (ast.Comments file).

(** A token is kept once for every entry of the allowed list equal to it. *)
Definition kept (allowedBuildTags : list string) (tokens : list string)
  : list string :=
  flat_map (λ t, replicate (occurrences t allowedBuildTags) t) tokens.

(** A file without directive lines has no build tags. *)
Definition noDirective (file : ast.File) : Prop :=
  ∀ c l, c ∈ ast.Comments file → l ∈ ast.CommentGroup_List c →
         strings_Contains (ast.Text l) "+build" = false.

(** The key under which a declaration is recorded: the name, qualified
    by the receiver type when there is one. *)
Definition declarationKey (typeName receiverType : string) : string :=
  if decide (receiverType = "") then typeName
  else receiverType +:+ "." +:+ typeName.

(** The tag string of a key after one more tag is recorded for it. *)
Definition appendTag (old : option string) (tagName : string) : string :=
  match old with
  | None => tagName
  | Some tns => if decide (tns = "") then tagName else tns +:+ ", " +:+ tagName
  end.

Definition addTag (key tagName : string) (m : gmap string string)
  : gmap string string :=
  <[key := appendTag (m !! key) tagName]> m.

(** The keys of the names a specification declares, in order. *)
Definition specKeys (spec : ast.Spec) : list string :=
  match spec with
  | ast.SType spec => [ast.Name (ast.TypeSpec_Name spec)]
  | ast.SValue spec => ast.Name <$> ast.ValueSpec_Names spec
  | ast.SImport _ => []
  end.

(** The keys of a top-level declaration. *)
Definition declKeys (decl : ast.Decl) : result (list string) :=
  match decl with
  | ast.DFunc decl =>
      rbind (getReceiverType decl) (λ receiverType,
      Ok [declarationKey (ast.Name (ast.FuncDecl_Name decl)) receiverType])
  | ast.DGen decl => Ok (flat_map specKeys (ast.Specs decl))
  | ast.DBad => Ok []
  end.

(** Every receiver of the declaration lists at least one field, as in
    the trees built by the parser. *)
Definition receiverListed (decl : ast.FuncDecl) : Prop :=
  ∀ recv, ast.Recv decl = Some recv → ast.FieldList_List recv ≠ [].

(** A file in which every receiver lists at least one field. *)
Definition listedFile (fileAst : ast.File) : Prop :=
  ∀ decl, ast.DFunc decl ∈ ast.Decls fileAst → receiverListed decl.

(** The file system and the parser return or fail with an error, and
    the parser builds its receivers with at least one field. *)
Definition soundLibrary (c : Corpus) : Prop :=
  (∀ filename, fs c filename ≠ Panic)
  ∧ (∀ filename src, parser_ParseFile filename src ≠ Panic)
  ∧ (∀ filename src tree,
       parser_ParseFile filename src = Ok tree → listedFile tree).

(** Running [f] over a slice and appending the lists it returns. *)
Fixpoint collect {A B} (f : A -> result (list B)) (l : list A)
  : result (list B) :=
  match l with
  | [] => Ok []
  | x :: l' =>
      rbind (f x) (λ ys, rbind (collect f l') (λ ys', Ok (ys ++ ys')))
  end.

(** The keys declared by a file, and by the files of a batch. *)
Definition fileKeys (fileAst : ast.File) : result (list string) :=
  collect declKeys (ast.Decls fileAst).

Definition batchKeys (astMap : list (string * ast.File))
  : result (list string) :=
  collect (λ entry, fileKeys entry.2) astMap.

(** The number of declarations of [key] in a file; a file on which the
    walk panics counts for none. *)
Definition declaredIn (key : string) (fileAst : ast.File) : nat :=
  match fileKeys fileAst with
  | Ok keys => occurrences key keys
  | _ => 0%nat
  end.

(** The tree loaded from one path. *)
Definition loadOne (c : Corpus) (filename : string) : result ast.File :=
  outcome (parseFile c filename).

(** The number of declarations of [key] in the files re-loaded for
    [tagName]. *)
Definition declared (s : Schedule) (c : Corpus) (files : gmap string ast.File)
    (relpath abspath : string) (ctxt : build.Context)
    (key tagName : string) : nat :=
  match classify s files (build.BuildTags ctxt) !! tagName with
  | None => 0%nat
  | Some fileNames =>
      match outcome (parseFiles c relpath abspath fileNames) with
      | Ok astMap => sum_list (declaredIn key <$> (map_to_list astMap).*2)
      | _ => 0%nat
      end
  end.

(** [tagToFiles[tag]]: the nil slice when the tag has no entry. *)
Definition filesOf (tagToFiles : gmap string (list string)) (tag : string)
  : list string :=
  default [] (tagToFiles !! tag).

(** A recorded declaration: a key and the tag under which it was found. *)
Definition replay (events : list (string * string)) (m : gmap string string)
  : gmap string string :=
  foldl (λ m e, addTag e.1 e.2 m) m events.

Definition tagsFor (key : string) (events : list (string * string))
  : list string :=
  (filter (λ e, e.1 = key) events).*2.

(** The declarations recorded while one entry of [tagToFiles] is
    processed, when the batch loads and the walk returns. *)
Definition tagEvents (s : Schedule) (c : Corpus) (relpath abspath : string)
    (entry : string * list string) : option (list (string * string)) :=
  match outcome (parseFiles c relpath abspath entry.2) with
  | Ok astMap =>
      match batchKeys (order_batch s entry.1 (map_to_list astMap)) with
      | Ok keys => Some ((λ key, (key, entry.1)) <$> keys)
      | _ => None
      end
  | _ => None
  end.

(** The number of declarations of [key] in the batch of one entry of
    [tagToFiles], counted for the tag [tagName] only. *)
Definition entryCount (c : Corpus) (relpath abspath : string)
    (key tagName : string) (entry : string * list string) : nat :=
  if decide (entry.1 = tagName) then
    match outcome (parseFiles c relpath abspath entry.2) with
    | Ok astMap => sum_list (declaredIn key <$> (map_to_list astMap).*2)
    | _ => 0%nat
    end
  else 0%nat.

(** The tags recorded for [key], in the order in which the second loop
    visits the entries of [tagToFiles]: each tag once for every
    declaration of the key in its batch. *)
Definition tagsInOrder (s : Schedule) (c : Corpus)
    (files : gmap string ast.File) (relpath abspath : string)
    (ctxt : build.Context) (key : string) : list string :=
  flat_map (λ entry,
              replicate (entryCount c relpath abspath key entry.1 entry)
                        entry.1)
    (order_tags s (map_to_list (classify s files (build.BuildTags ctxt)))).

(** How often the files with base name [b] mention [tag], counted over
    the entries of [files]. *)
Definition mentions (allowedBuildTags : list string) (tag b : string)
    (entries : list (string * ast.File)) : nat :=
  sum_list ((λ entry,
               if decide (filepath_Base entry.1 = b)
               then occurrences tag (findBuildTags entry.2 allowedBuildTags).1
               else 0%nat) <$> entries).

(** The paths of all groups, in the order in which the second loop
    visits the entries of [tagToFiles]. *)
Definition groupPaths (s : Schedule) (files : gmap string ast.File)
    (abspath : string) (ctxt : build.Context) : list string :=
  flat_map (λ entry, path_Join abspath <$> entry.2)
    (order_tags s (map_to_list (classify s files (build.BuildTags ctxt)))).

(** Every file in which an allowed tag is found can be loaded from its
    base name under [abspath]. *)
Definition taggedFilesLoad (c : Corpus) (files : gmap string ast.File)
    (abspath : string) (ctxt : build.Context) : Prop :=
  ∀ fName fAst,
    files !! fName = Some fAst →
    (findBuildTags fAst (build.BuildTags ctxt)).1 ≠ [] →
    ∃ tree, loadOne c (path_Join abspath (filepath_Base fName)) = Ok tree.

(** The tag string of a key in the map a run returns, as the test reads
    it with [tagMap[key]]. *)
Definition tagMapAt (run : IO (gmap string string)) (key : string)
  : option string :=
  match outcome run with
  | Ok tagMap => tagMap !! key
  | _ => None
  end.

(** The tags listed for a key in the map that is returned. *)
Definition listedTags (m : gmap string string) (key : string) : list string :=
  match m !! key with
  | Some tns => renderedTags tns
  | None => []
  end.

(** Position [p] of [src] is the start of a line. *)
Definition lineStart (src : bytes) (p : nat) : Prop :=
  p = 0%nat ∨ src !! (p - 1)%nat = Some newline.

End Notions.

(** ** A concrete library and the corpus of [parser_test.go] *)

Module Concrete.

Definition isSpace (a : ascii) : bool :=
  match nat_of_ascii a with
  | 9%nat | 10%nat | 11%nat | 12%nat | 13%nat | 32%nat => true
  | _ => false
  end.

Fixpoint fields_from (s cur : string) : list string :=
  match s with
  | EmptyString => if String.eqb cur "" then [] else [cur]
  | String a s' =>
      if isSpace a then
        (if String.eqb cur "" then fields_from s' ""
         else cur :: fields_from s' "")
      else fields_from s' (cur +:+ String a "")
  end.

(** Modelled from the spec: [buildutil.TagsFlag.Set] is not among the
    sources; the text of a directive line is split into its
    space-separated raw tokens. *)
Definition Fields (s : string) : list string := fields_from s "".

Fixpoint render (e : ast.Expr) : string :=
  match e with
  | ast.EIdent id => ast.Name id
  | ast.StarExpr X => "*" +:+ render X
  | ast.SelectorExpr X Sel => render X +:+ "." +:+ ast.Name Sel
  | ast.BadExpr => "BadExpr"
  end.

(** Joining clean, slash-separated path elements. *)
Definition join (a b : string) : string :=
  if String.eqb a "" then b else a +:+ "/" +:+ b.

Fixpoint base_from (s cur : string) : string :=
  match s with
  | EmptyString => cur
  | String a s' =>
      if Ascii.eqb a "/" then base_from s' "" else base_from s' (cur +:+ String a "")
  end.

Definition base (s : string) : string := base_from s "".

Definition dquote : string := String (ascii_of_nat 34) "".

(** Quoting of a string of printable characters without quotes or
    backslashes. *)
Definition quote (s : string) : string := dquote +:+ s +:+ dquote.

(** A parser given by the table of the trees it returns, by file name. *)
Definition lib (trees : string -> result ast.File) : GoLib :=
  {| TagsFlag_Set := Fields;
     format_Node := fun e => Some (render e);
     parser_ParseFile := fun filename _ => trees filename;
     path_Join := join;
     filepath_Base := base;
     strconv_Quote := quote |}.

Definition corpus (content : list (string * string)) : Corpus :=
  {| fs := fun filename =>
             match list_to_map (M := gmap string string) content !! filename with
             | Some text => Ok (bytes_of text)
             | None => Err "file does not exist"
             end |}.

Definition ident (name : string) : ast.Ident := {| ast.Name := name |}.
Definition comment (text : string) : ast.CommentGroup :=
  {| ast.CommentGroup_List := [ {| ast.Text := text |} ] |}.
Definition func (name : string) : ast.Decl :=
  ast.DFunc {| ast.Recv := None; ast.FuncDecl_Name := ident name |}.
Definition method (recv : ast.Expr) (name : string) : ast.Decl :=
  ast.DFunc {| ast.Recv :=
                 Some {| ast.FieldList_List :=
                           [ {| ast.Field_Names := [ident "a"];
                                ast.Field_Type := recv |} ] |};
               ast.FuncDecl_Name := ident name |}.
Definition typeDecl (name : string) : ast.Decl :=
  ast.DGen {| ast.Specs := [ast.SType {| ast.TypeSpec_Name := ident name |}] |}.
Definition valueDecl (names : list string) : ast.Decl :=
  ast.DGen {| ast.Specs :=
                [ast.SValue {| ast.ValueSpec_Names := ident <$> names |}] |}.

(** Schedules: the order of [map_to_list], and its reverse. *)
Definition forwards : Schedule :=
  {| order_files := id; order_tags := id; order_batch := fun _ => id |}.
Definition backwards : Schedule :=
  {| order_files := reverse; order_tags := reverse;
     order_batch := fun _ => reverse |}.

(** The order of [map_to_list] for [files] and [tagToFiles], its reverse
    for the batches. *)
Definition batchBackwards : Schedule :=
  {| order_files := id; order_tags := id; order_batch := fun _ => reverse |}.

End Concrete.

(** The three files of [TestCorpus_ExtractBuildTags]. *)
Module TestCorpus.
Import Concrete.

Definition bar_go : ast.File :=
  {| ast.Comments := [comment "// Package bar is an example."];
     ast.Decls := [valueDecl ["WunderBar"]; typeDecl "TrinkBar"] |}.

Definition xtag1_go : ast.File :=
  {| ast.Comments := [comment "// +build xtag1";
                      comment "// First function is first.";
                      comment "// unexported function is third."];
     ast.Decls := [func "First"; func "unexported"; typeDecl "A";
                   method (ast.EIdent (ident "A")) "String"] |}.

Definition xtag2_go : ast.File :=
  {| ast.Comments := [comment "// +build xtag2 xtag3"];
     ast.Decls := [func "NewCheersWithBeer"; valueDecl ["TestConst"]] |}.

Definition trees (filename : string) : result ast.File :=
  if String.eqb filename "/src/bar.go" then Ok bar_go
  else if String.eqb filename "/src/xtag1.go" then Ok xtag1_go
  else if String.eqb filename "/src/xtag2.go" then Ok xtag2_go
  else Err "syntax error".

Definition golib : GoLib := lib trees.

Definition c : Corpus :=
  corpus [("/src/bar.go", "package bar");
          ("/src/xtag1.go", "// +build xtag1");
          ("/src/xtag2.go", "// +build xtag2 xtag3")].

Definition ctxt : build.Context :=
  {| build.BuildTags := ["xtag1"; "xtag2"; "xtag3"] |}.

(** [fast], the result of the call of [parseFiles] in the test. *)
Definition fast : gmap string ast.File :=
  list_to_map [("bar.go", bar_go); ("xtag1.go", xtag1_go); ("xtag2.go", xtag2_go)].

(** [tagMap], the map the test reads, for a run in the order
    [backwards]. *)
Definition tagMap : gmap string string :=
  match outcome (@mapIdentifierToBuildTag golib backwards c fast "" "/src" ctxt)
  with
  | Ok m => m
  | _ => ∅
  end.

End TestCorpus.

(** The corpus of the test without [xtag2.go] on the file system, and
    with a shorter list of allowed tags. *)
Module Variants.
Import Concrete.

Definition c_missing : Corpus :=
  corpus [("/src/bar.go", "package bar");
          ("/src/xtag1.go", "// +build xtag1")].

Definition ctxt_two : build.Context :=
  {| build.BuildTags := ["xtag1"; "xtag2"] |}.

Definition tagMap_two : gmap string string :=
  match outcome (@mapIdentifierToBuildTag TestCorpus.golib forwards
                   TestCorpus.c TestCorpus.fast "" "/src" ctxt_two)
  with
  | Ok m => m
  | _ => ∅
  end.

Definition untagged : gmap string ast.File :=
  {[ "bar.go" := TestCorpus.bar_go ]}.

End Variants.

(** Two files under the same tag that both declare [init]. *)
Module TwoInits.
Import Concrete.

Definition dial_go : ast.File :=
  {| ast.Comments := [comment "// +build linux"];
     ast.Decls := [func "init"; func "Dial"] |}.

Definition listen_go : ast.File :=
  {| ast.Comments := [comment "// +build linux"];
     ast.Decls := [func "init"; func "Listen"] |}.

Definition trees (filename : string) : result ast.File :=
  if String.eqb filename "/net/dial.go" then Ok dial_go
  else if String.eqb filename "/net/listen.go" then Ok listen_go
  else Err "syntax error".

Definition golib : GoLib := lib trees.

Definition c : Corpus :=
  corpus [("/net/dial.go", "// +build linux");
          ("/net/listen.go", "// +build linux")].

Definition ctxt : build.Context := {| build.BuildTags := ["linux"] |}.

Definition files : gmap string ast.File :=
  list_to_map [("dial.go", dial_go); ("listen.go", listen_go)].

End TwoInits.

(** Two keys of [files] in different directories with the same base
    name. *)
Module SameBase.
Import Concrete.

Definition x_go : ast.File :=
  {| ast.Comments := [comment "// +build linux"];
     ast.Decls := [func "Open"] |}.

Definition trees (filename : string) : result ast.File :=
  if String.eqb filename "/src/x.go" then Ok x_go else Err "syntax error".

Definition golib : GoLib := lib trees.

Definition c : Corpus := corpus [("/src/x.go", "// +build linux")].

Definition ctxt : build.Context := {| build.BuildTags := ["linux"] |}.

Definition files : gmap string ast.File :=
  list_to_map [("a/x.go", x_go); ("b/x.go", x_go)].

Definition astMap : gmap string ast.File :=
  match outcome (@parseFiles golib c "" "/src" ["x.go"; "x.go"]) with
  | Ok m => m
  | _ => ∅
  end.

End SameBase.

(** A marker that follows a marker which is not at the start of a line. *)
Module Adjacent.

Definition src : bytes := bytes_of "x//line //line y".

End Adjacent.

(** A generated file: position comments at the start of lines. *)
Module Generated.

Definition lines : list bytes :=
  [bytes_of "//line parser.y:12"; bytes_of "package expr"; bytes_of "";
   bytes_of "//line parser.y:40"; bytes_of "var depth int"].

End Generated.

(** A file whose two directive lines both mention [linux]. *)
Module TwoLines.
Import Concrete.

Definition golib : GoLib := lib (λ _, Err "syntax error").

Definition file : ast.File :=
  {| ast.Comments :=
       [ {| ast.CommentGroup_List :=
              [ {| ast.Text := "// +build linux darwin" |};
                {| ast.Text := "// +build linux freebsd" |} ] |} ];
     ast.Decls := [func "Open"] |}.

End TwoLines.

(** A library whose renderer fails on every expression. *)
Module Unrendered.
Import Concrete.

Definition golib : GoLib :=
  {| TagsFlag_Set := Fields;
     format_Node := fun _ => None;
     parser_ParseFile := fun _ _ => Err "syntax error";
     path_Join := join;
     filepath_Base := base;
     strconv_Quote := quote |}.

End Unrendered.

(** ** Counting *)

Lemma occurrences_nil t : occurrences t [] = 0%nat.
Proof. reflexivity. Qed.

Lemma occurrences_cons t x l :
  occurrences t (x :: l) =
  ((if decide (x = t) then 1 else 0) + occurrences t l)%nat.
Proof.
  unfold occurrences. rewrite filter_cons.
  destruct (decide (x = t)); reflexivity.
Qed.

Lemma occurrences_app t l1 l2 :
  occurrences t (l1 ++ l2) = (occurrences t l1 + occurrences t l2)%nat.
Proof. unfold occurrences. by rewrite filter_app, length_app. Qed.

Lemma occurrences_replicate t n x :
  occurrences t (replicate n x) = if decide (x = t) then n else 0%nat.
Proof.
  induction n as [|n IH]; simpl.
  - by destruct (decide (x = t)).
  - rewrite occurrences_cons, IH. by destruct (decide (x = t)).
Qed.

Lemma occurrences_pos t l : (0 < occurrences t l)%nat ↔ t ∈ l.
Proof.
  induction l as [|x l IH].
  - rewrite occurrences_nil. split; [lia | by intros ?%elem_of_nil].
  - rewrite occurrences_cons, elem_of_cons.
    destruct (decide (x = t)) as [->|Hne].
    + split; [by left | lia].
    + rewrite Nat.add_0_l, IH. split; [by right | by intros [->|?]].
Qed.

Lemma occurrences_flat_map_replicate t (n : string -> nat) l :
  occurrences t (flat_map (λ x, replicate (n x) x) l)
  = (occurrences t l * n t)%nat.
Proof.
  induction l as [|x l IH]; simpl; [done|].
  rewrite occurrences_app, occurrences_replicate, occurrences_cons, IH.
  destruct (decide (x = t)) as [->|]; lia.
Qed.

Lemma occurrences_Permutation t l1 l2 :
  l1 ≡ₚ l2 → occurrences t l1 = occurrences t l2.
Proof. intros Hp. unfold occurrences. by rewrite Hp. Qed.

Lemma flat_map_all_nil {A B} (f : A -> list B) (l : list A) :
  (∀ x, x ∈ l → f x = []) → flat_map f l = [].
Proof.
  induction l as [|x l IH]; intros Hall; simpl; [done|].
  rewrite (Hall x) by left. simpl. apply IH. intros y Hy. apply Hall. by right.
Qed.

Lemma String_eqb_decide (a b : string) :
  String.eqb a b = bool_decide (a = b).
Proof.
  destruct (String.eqb_spec a b) as [->|Hne].
  - by rewrite bool_decide_eq_true_2.
  - by rewrite bool_decide_eq_false_2.
Qed.

(** ** The tag extractor *)

Section TagExtractor.
Context `{GoLib}.



Lemma matchAllowed_spec t tags allowed :
  matchAllowed t tags allowed = tags ++ replicate (occurrences t allowed) t.
Proof.
  unfold matchAllowed. revert tags.
  induction allowed as [|abt allowed IH]; intros tags; simpl.
  - by rewrite app_nil_r.
  - rewrite String_eqb_decide, occurrences_cons.
    destruct (decide (abt = t)) as [->|Hne].
    + rewrite bool_decide_eq_true_2 by done.
      by rewrite IH, <- app_assoc.
    + rewrite bool_decide_eq_false_2 by congruence.
      by rewrite IH.
Qed.

Lemma scanTokens_spec allowed tags tf :
  foldl (λ tags t, matchAllowed t tags allowed) tags tf
  = tags ++ kept allowed tf.
Proof.
  revert tags. induction tf as [|t tf IH]; intros tags; simpl.
  - by rewrite app_nil_r.
  - by rewrite IH, matchAllowed_spec, <- app_assoc.
Qed.

Lemma scanLine_spec allowed tags l :
  scanLine allowed tags l
  = tags ++ kept allowed (if strings_Contains (ast.Text l) "+build"
                          then TagsFlag_Set (ast.Text l) else []).
Proof.
  unfold scanLine. destruct (strings_Contains _ _); simpl.
  - apply scanTokens_spec.
  - by rewrite app_nil_r.
Qed.

Lemma kept_app allowed l1 l2 :
  kept allowed (l1 ++ l2) = kept allowed l1 ++ kept allowed l2.
Proof. unfold kept. by rewrite flat_map_app. Qed.

Lemma scanGroup_spec allowed tags ls :
  foldl (scanLine allowed) tags ls
  = tags ++ kept allowed
      (flat_map (λ l, if strings_Contains (ast.Text l) "+build"
                      then TagsFlag_Set (ast.Text l) else []) ls).
Proof.
  revert tags. induction ls as [|l ls IH]; intros tags; simpl.
  - by rewrite app_nil_r.
  - by rewrite IH, scanLine_spec, kept_app, app_assoc.
Qed.

Lemma findBuildTags_kept file allowed :
  (findBuildTags file allowed).1 = kept allowed (directiveTokens file).
Proof.
  unfold findBuildTags, directiveTokens; simpl.
  generalize (ast.Comments file) as cs.
  enough (∀ cs tags,
    foldl (λ tags c, foldl (scanLine allowed) tags (ast.CommentGroup_List c))
          tags cs
    = tags ++ kept allowed
        (flat_map (λ c,
           flat_map (λ l, if strings_Contains (ast.Text l) "+build"
                          then TagsFlag_Set (ast.Text l) else [])
                    (ast.CommentGroup_List c)) cs)) as Hgen
    by (intros cs; apply (Hgen cs [])).
  induction cs as [|c cs IH]; intros tags; simpl.
  - by rewrite app_nil_r.
  - by rewrite IH, scanGroup_spec, kept_app, app_assoc.
Qed.

Lemma findBuildTags_ok file allowed :
  (findBuildTags file allowed).2 = true ↔ (findBuildTags file allowed).1 ≠ [].
Proof.
  unfold findBuildTags; simpl.
  rewrite bool_decide_eq_true.
  destruct (foldl _ _ _); simpl; split; (done || lia).
Qed.

Lemma elem_of_kept t allowed tokens :
  t ∈ kept allowed tokens ↔ t ∈ allowed ∧ t ∈ tokens.
Proof.
  rewrite <- !occurrences_pos. unfold kept.
  rewrite occurrences_flat_map_replicate. nia.
Qed.

Lemma findBuildTags_allowed file allowed t :
  t ∈ (findBuildTags file allowed).1 → t ∈ allowed.
Proof. rewrite findBuildTags_kept, elem_of_kept. tauto. Qed.


Lemma noDirective_tokens file : noDirective file → directiveTokens file = [].
Proof.
  intros Hno. unfold directiveTokens.
  apply flat_map_all_nil. intros c Hc.
  apply flat_map_all_nil. intros l Hl.
  by rewrite (Hno c l Hc Hl).
Qed.

Lemma noDirective_findBuildTags file allowed :
  noDirective file → (findBuildTags file allowed).1 = [].
Proof.
  intros Hno. by rewrite findBuildTags_kept, (noDirective_tokens _ Hno).
Qed.

End TagExtractor.

(** ** The receiver type and the keys of a declaration *)

Lemma String_append_nil_l (s : string) : "" +:+ s = s.
Proof. reflexivity. Qed.

Lemma String_append_cons (x : ascii) (a b : string) :
  String x a +:+ b = String x (a +:+ b).
Proof. reflexivity. Qed.


Lemma String_append_assoc (a b c : string) :
  (a +:+ b) +:+ c = a +:+ b +:+ c.
Proof.
  induction a as [|x a IH]; [done|].
  by rewrite !String_append_cons, IH.
Qed.

Section Keys.
Context `{GoLib}.

Lemma appendName_addTag typeName receiverType tagName m :
  appendName typeName receiverType tagName m
  = addTag (declarationKey typeName receiverType) tagName m.
Proof.
  assert ((if negb (String.eqb receiverType "")
           then "" +:+ receiverType +:+ "." else "") +:+ typeName
          = declarationKey typeName receiverType) as Hkey.
  { unfold declarationKey. rewrite String_eqb_decide.
    destruct (decide (receiverType = "")) as [->|Hne]; [done|].
    rewrite bool_decide_eq_false_2 by done. simpl.
    change ("" +:+ receiverType +:+ ".") with (receiverType +:+ ".").
    by rewrite String_append_assoc. }
  unfold appendName, addTag. cbv zeta. rewrite Hkey.
  f_equal. unfold appendTag.
  destruct (m !! _) as [tns|]; simpl; [|done].
  rewrite String_eqb_decide.
  destruct (decide (tns = "")) as [->|Hne]; [done|].
  by rewrite bool_decide_eq_false_2.
Qed.

Lemma walkSpec_keys tagName m spec :
  walkSpec tagName m spec
  = foldl (λ m key, addTag key tagName m) m (specKeys spec).
Proof.
  destruct spec as [s|s|s]; simpl; [done| |].
  - generalize (ast.ValueSpec_Names s) as ids. intros ids. revert m.
    induction ids as [|id ids IH]; intros m; simpl; [done|].
    by rewrite IH, appendName_addTag.
  - by rewrite appendName_addTag.
Qed.

Lemma walkSpecs_keys tagName m specs :
  foldl (walkSpec tagName) m specs
  = foldl (λ m key, addTag key tagName m) m (flat_map specKeys specs).
Proof.
  revert m. induction specs as [|spec specs IH]; intros m; simpl; [done|].
  by rewrite IH, walkSpec_keys, foldl_app.
Qed.

(** The walk records the tag at the keys of the declaration, in order. *)
Lemma walkDecl_keys tagName m decl :
  walkDecl tagName m decl
  = rbind (declKeys decl)
          (λ keys, Ok (foldl (λ m key, addTag key tagName m) m keys)).
Proof.
  destruct decl as [|d|d]; simpl; [done| |].
  - by rewrite walkSpecs_keys.
  - destruct (getReceiverType d) as [rt| |]; simpl; [|done..].
    by rewrite appendName_addTag.
Qed.


Lemma getReceiverType_listed (decl : ast.FuncDecl) :
  receiverListed decl → ∃ text, getReceiverType decl = Ok text.
Proof.
  unfold getReceiverType, receiverListed. intros Hlisted.
  destruct (ast.Recv decl) as [recv|]; [|by eauto].
  specialize (Hlisted recv eq_refl).
  destruct (ast.FieldList_List recv) as [|field rest]; [done|]. simpl.
  destruct (format_Node _); eauto.
Qed.

(** C10. [getReceiverType] returns on every function declaration whose
    receiver, when present, lists at least one field: element 0 of the
    receiver list exists, so the call does not panic; the result is the
    empty string when there is no receiver and when rendering the
    receiver type fails. *)
Theorem getReceiverType_total (decl : ast.FuncDecl)
    (Hlisted : receiverListed decl) :
  (∃ text, getReceiverType decl = Ok text)
  ∧ (∀ recv, ast.Recv decl = Some recv →
       is_Some (ast.FieldList_List recv !! 0%nat))
  ∧ (ast.Recv decl = None → getReceiverType decl = Ok "")
  ∧ (∀ recv field,
       ast.Recv decl = Some recv →
       ast.FieldList_List recv !! 0%nat = Some field →
       format_Node (ast.Field_Type field) = None →
       getReceiverType decl = Ok "").
Proof.
  unfold getReceiverType, receiverListed in *.
  destruct (ast.Recv decl) as [recv|] eqn:Hrecv.
  - specialize (Hlisted recv eq_refl).
    destruct (ast.FieldList_List recv) as [|field rest] eqn:Hlist; [done|].
    simpl. repeat split.
    + destruct (format_Node _); eauto.
    + intros recv' [= <-]. rewrite Hlist. simpl. eauto.
    + done.
    + intros recv' field' [= <-]. rewrite Hlist. simpl.
      intros [= <-] ->. done.
  - repeat split; eauto; done.
Qed.

(** Without the precondition the index expression is out of range. *)
Lemma getReceiverType_empty_receiver name :
  getReceiverType {| ast.Recv := Some {| ast.FieldList_List := [] |};
                     ast.FuncDecl_Name := name |} = Panic.
Proof. reflexivity. Qed.

End Keys.

(** ** The extractor *)

(** C3, as stated, fails: [linux] is returned twice for a file that
    mentions it on two directive lines. *)
Lemma findBuildTags_not_deduplicated :
  ¬ (NoDup (@findBuildTags TwoLines.golib TwoLines.file ["linux"]).1
     ∧ ((@findBuildTags TwoLines.golib TwoLines.file ["linux"]).2 = true
        ↔ (@findBuildTags TwoLines.golib TwoLines.file ["linux"]).1 ≠ [])).
Proof.
  intros [Hnodup _].
  assert ((@findBuildTags TwoLines.golib TwoLines.file ["linux"]).1
          = ["linux"; "linux"]) as Heq by (vm_compute; reflexivity).
  rewrite Heq in Hnodup.
  apply NoDup_cons in Hnodup as [Hnotin _].
  apply Hnotin. by left.
Qed.

(** C3, amended. The extractor returns the kept tokens in order of
    appearance and without deduplication: a token is listed once for
    each of its occurrences on a directive line and each entry of the
    allowed list equal to it; the boolean is true exactly when the list
    is not empty. *)
Theorem findBuildTags_listing `{GoLib} (file : ast.File)
    (allowedBuildTags : list string) :
  (findBuildTags file allowedBuildTags).1
    = kept allowedBuildTags (directiveTokens file)
  ∧ (∀ t, occurrences t (findBuildTags file allowedBuildTags).1
          = (occurrences t (directiveTokens file)
             * occurrences t allowedBuildTags)%nat)
  ∧ (∀ t, t ∈ (findBuildTags file allowedBuildTags).1
          ↔ t ∈ allowedBuildTags ∧ t ∈ directiveTokens file)
  ∧ ((findBuildTags file allowedBuildTags).2 = true
     ↔ (findBuildTags file allowedBuildTags).1 ≠ []).
Proof.
  split; [apply findBuildTags_kept|].
  split; [|split].
  - intros t. rewrite findBuildTags_kept. apply occurrences_flat_map_replicate.
  - intros t. rewrite findBuildTags_kept. apply elem_of_kept.
  - apply findBuildTags_ok.
Qed.

(** ** The short cut for files without allowed tags *)

Section ShortCut.
Context `{GoLib}.

Lemma classifyFile_no_tags allowed tagToFiles fName fAst :
  (findBuildTags fAst allowed).1 = [] →
  classifyFile allowed tagToFiles (fName, fAst) = tagToFiles.
Proof.
  intros Hnil. unfold classifyFile.
  destruct (findBuildTags fAst allowed) as [bts ok]. simpl in Hnil. subst bts.
  by destruct ok.
Qed.

Lemma classify_no_tags (s : Schedule) files allowed :
  admissible s →
  (∀ fName fAst, files !! fName = Some fAst →
                 (findBuildTags fAst allowed).1 = []) →
  classify s files allowed = ∅.
Proof.
  intros (Hfiles & _ & _) Hnil. unfold classify.
  assert (∀ entry, entry ∈ order_files s (map_to_list files) →
                   (findBuildTags entry.2 allowed).1 = []) as Hall.
  { intros [fName fAst]. rewrite Hfiles, elem_of_map_to_list. apply Hnil. }
  revert Hall. generalize (order_files s (map_to_list files)) as entries.
  induction entries as [|[fName fAst] entries IH]; intros Hall;
    cbn [foldl]; [done|].
  rewrite classifyFile_no_tags by (apply (Hall (fName, fAst)); by left).
  apply IH. intros entry Hentry. apply Hall. by right.
Qed.

(** C7. When no file has a directive line that mentions an allowed tag,
    and in particular when no file has a directive line at all, the
    mapper returns the empty map and no error, and reads no file. *)
Theorem mapIdentifierToBuildTag_no_tags (s : Schedule) (c : Corpus)
    (files : gmap string ast.File) (relpath abspath : string)
    (ctxt : build.Context)
    (Hadm : admissible s)
    (Hnone : ∀ fName fAst, files !! fName = Some fAst →
               (findBuildTags fAst (build.BuildTags ctxt)).1 = []
               ∨ noDirective fAst) :
  classify s files (build.BuildTags ctxt) = ∅
  ∧ mapIdentifierToBuildTag s c files relpath abspath ctxt = ([], Ok ∅).
Proof.
  assert (classify s files (build.BuildTags ctxt) = ∅) as Hempty.
  { apply classify_no_tags; [done|].
    intros fName fAst Hin.
    destruct (Hnone fName fAst Hin) as [Hnil|Hno]; [done|].
    by apply noDirective_findBuildTags. }
  split; [done|].
  unfold mapIdentifierToBuildTag. cbv zeta. by rewrite Hempty.
Qed.

End ShortCut.

(** ** The order of the tags *)

Lemma forwards_admissible : admissible Concrete.forwards.
Proof. by repeat split. Qed.

Lemma backwards_admissible : admissible Concrete.backwards.
Proof.
  repeat split; simpl; intros; apply reverse_Permutation.
Qed.

(** The five checks of the test pass for the run in the order
    [backwards], whose input is what [parseFiles] returns. *)
Example TestCorpus_ExtractBuildTags :
  outcome (@parseFiles TestCorpus.golib TestCorpus.c "" "/src"
             ["bar.go"; "xtag1.go"; "xtag2.go"]) = Ok TestCorpus.fast
  ∧ TestCorpus.tagMap !! "First" = Some "xtag1"
  ∧ TestCorpus.tagMap !! "unexported" = Some "xtag1"
  ∧ TestCorpus.tagMap !! "NewCheersWithBeer" = Some "xtag2, xtag3"
  ∧ TestCorpus.tagMap !! "A.String" = Some "xtag1"
  ∧ TestCorpus.tagMap !! "TestConst" = Some "xtag2, xtag3".
Proof. repeat split; vm_compute; reflexivity. Qed.

(** C2. On the corpus of the test, two runs that differ only in the
    order in which [range] visits the maps give different tag strings
    for [NewCheersWithBeer]: one of them is the string the test expects,
    the other lists the same tags in the opposite order. *)
Theorem tag_order_follows_map_iteration :
  admissible Concrete.forwards ∧ admissible Concrete.backwards
  ∧ tagMapAt (@mapIdentifierToBuildTag TestCorpus.golib Concrete.forwards
                TestCorpus.c TestCorpus.fast "" "/src" TestCorpus.ctxt)
             "NewCheersWithBeer" = Some "xtag3, xtag2"
  ∧ tagMapAt (@mapIdentifierToBuildTag TestCorpus.golib Concrete.backwards
                TestCorpus.c TestCorpus.fast "" "/src" TestCorpus.ctxt)
             "NewCheersWithBeer" = Some "xtag2, xtag3"
  ∧ @mapIdentifierToBuildTag TestCorpus.golib Concrete.forwards
      TestCorpus.c TestCorpus.fast "" "/src" TestCorpus.ctxt
    ≠ @mapIdentifierToBuildTag TestCorpus.golib Concrete.backwards
        TestCorpus.c TestCorpus.fast "" "/src" TestCorpus.ctxt.
Proof.
  assert (tagMapAt (@mapIdentifierToBuildTag TestCorpus.golib
                      Concrete.forwards TestCorpus.c TestCorpus.fast ""
                      "/src" TestCorpus.ctxt)
                   "NewCheersWithBeer" = Some "xtag3, xtag2") as Hfwd
    by (vm_compute; reflexivity).
  assert (tagMapAt (@mapIdentifierToBuildTag TestCorpus.golib
                      Concrete.backwards TestCorpus.c TestCorpus.fast ""
                      "/src" TestCorpus.ctxt)
                   "NewCheersWithBeer" = Some "xtag2, xtag3") as Hbwd
    by (vm_compute; reflexivity).
  split; [apply forwards_admissible|].
  split; [apply backwards_admissible|].
  split; [exact Hfwd|]. split; [exact Hbwd|].
  intros Heq. rewrite Heq, Hbwd in Hfwd. discriminate Hfwd.
Qed.

(** ** The sanitizer *)

(** C5. The marker at index 8 of [x//line //line y] is not at the start
    of a line, since the byte before it is a space, and the sanitizer
    blanks it all the same: after the first marker is skipped the buffer
    is re-sliced, and the second marker is at index 0 of the new slice. *)
Theorem marker_after_skipped_marker :
  bytes_HasPrefix (drop 8 Adjacent.src) Sanitizer.linePrefix = true
  ∧ ¬ lineStart Adjacent.src 8
  ∧ Sanitizer.replaceLinePrefixCommentsWithBlankLine Adjacent.src
    = bytes_of "x//line         "
  ∧ Sanitizer.replaceLinePrefixCommentsWithBlankLine Adjacent.src !! 8%nat
    ≠ Adjacent.src !! 8%nat.
Proof.
  split; [reflexivity|].
  split; [|split].
  - intros [Hzero|Hnl]; [discriminate Hzero|].
    vm_compute in Hnl. discriminate Hnl.
  - vm_compute. reflexivity.
  - vm_compute. discriminate.
Qed.

(** ** Rendered tag strings *)

Lemma String_append_nil_r (s : string) : s +:+ "" = s.
Proof.
  induction s as [|x s IH]; [done|]. by rewrite String_append_cons, IH.
Qed.

Lemma String_append_snoc (cur : string) (a : ascii) (t : string) :
  (cur +:+ String a "") +:+ t = cur +:+ String a t.
Proof. by rewrite String_append_assoc. Qed.

Lemma renderedTags_from_cons2 (a b : ascii) (s cur : string) :
  renderedTags_from (String a (String b s)) cur
  = if Ascii.eqb a "," && Ascii.eqb b " "
    then cur :: renderedTags_from s ""
    else renderedTags_from (String b s) (cur +:+ String a "").
Proof. reflexivity. Qed.

Lemma hasSeparator_cons2 (a b : ascii) (s : string) :
  hasSeparator (String a (String b s))
  = (Ascii.eqb a "," && Ascii.eqb b " ") || hasSeparator (String b s).
Proof. reflexivity. Qed.

Lemma renderedTags_from_plain (t cur : string) :
  plainTag t → renderedTags_from t cur = [cur +:+ t].
Proof.
  unfold plainTag. revert cur.
  induction t as [|a t IH]; intros cur Hplain.
  - by rewrite String_append_nil_r.
  - destruct t as [|b t]; [reflexivity|].
    rewrite hasSeparator_cons2 in Hplain.
    apply orb_false_iff in Hplain as [Hab Hplain].
    rewrite renderedTags_from_cons2, Hab.
    by rewrite IH, String_append_snoc.
Qed.

Lemma renderedTags_from_sep (t rest cur : string) :
  plainTag t →
  renderedTags_from (t +:+ ", " +:+ rest) cur
  = (cur +:+ t) :: renderedTags_from rest "".
Proof.
  unfold plainTag. revert cur.
  induction t as [|a t IH]; intros cur Hplain.
  - by rewrite String_append_nil_r.
  - destruct t as [|b t].
    + rewrite String_append_cons, String_append_nil_l.
      change (", " +:+ rest) with (String "," (String " " rest)).
      rewrite renderedTags_from_cons2.
      replace (Ascii.eqb "," " ") with false by reflexivity.
      rewrite andb_false_r.
      specialize (IH (cur +:+ String a "") eq_refl).
      rewrite String_append_nil_l, String_append_nil_r in IH.
      exact IH.
    + rewrite hasSeparator_cons2 in Hplain.
      apply orb_false_iff in Hplain as [Hab Hplain].
      rewrite !String_append_cons.
      rewrite renderedTags_from_cons2, Hab, <- String_append_cons.
      by rewrite IH, String_append_snoc.
Qed.

Lemma concat_cons2 (sep x y : string) (l : list string) :
  String.concat sep (x :: y :: l) = x +:+ sep +:+ String.concat sep (y :: l).
Proof. reflexivity. Qed.

Lemma concat_snoc (sep t : string) (ts : list string) :
  ts ≠ [] →
  String.concat sep (ts ++ [t]) = String.concat sep ts +:+ sep +:+ t.
Proof.
  induction ts as [|x ts IH]; intros Hne; [done|].
  destruct ts as [|y ts]; [done|].
  change ((x :: y :: ts) ++ [t]) with (x :: y :: (ts ++ [t])).
  rewrite !concat_cons2.
  change (y :: ts ++ [t]) with ((y :: ts) ++ [t]).
  rewrite IH by done. by rewrite !String_append_assoc.
Qed.

Lemma concat_nonempty (sep x : string) (l : list string) :
  x ≠ "" → String.concat sep (x :: l) ≠ "".
Proof.
  intros Hx. destruct l as [|y l]; [done|].
  rewrite concat_cons2. destruct x; [done|].
  by rewrite String_append_cons.
Qed.

(** Splitting undoes joining, for tags that do not contain the
    separator. *)
Lemma renderedTags_concat (ts : list string) :
  ts ≠ [] → Forall plainTag ts →
  renderedTags (String.concat ", " ts) = ts.
Proof.
  unfold renderedTags.
  induction ts as [|x ts IH]; intros Hne Hplain; [done|].
  apply Forall_cons in Hplain as [Hx Hts].
  destruct ts as [|y ts].
  - simpl. by rewrite renderedTags_from_plain.
  - rewrite concat_cons2, renderedTags_from_sep by done.
    by rewrite IH.
Qed.

(** ** Laws of the two monads *)

Lemma IO_eta {A} (m : IO A) : m = (reads m, outcome m).
Proof. by destruct m. Qed.

Lemma outcome_iobind {A B} (m : IO A) (k : A -> IO B) :
  outcome (iobind m k) = rbind (outcome m) (λ a, outcome (k a)).
Proof.
  destruct m as [tr [a|e|]]; simpl; [|done..]. by destruct (k a).
Qed.

Lemma reads_iobind {A B} (m : IO A) (k : A -> IO B) :
  reads (iobind m k)
  = reads m ++ match outcome m with Ok a => reads (k a) | _ => [] end.
Proof.
  destruct m as [tr [a|e|]]; simpl; [|by rewrite app_nil_r..].
  by destruct (k a).
Qed.

Lemma outcome_iowrap {A} (wrap : string -> string) (m : IO A) :
  outcome (iowrap wrap m)
  = match outcome m with Err e => Err (wrap e) | r => r end.
Proof. by destruct m as [tr [a|e|]]. Qed.

Lemma reads_iowrap {A} (wrap : string -> string) (m : IO A) :
  reads (iowrap wrap m) = reads m.
Proof. by destruct m as [tr [a|e|]]. Qed.

Lemma foldlM_collect {A B C} (f : A -> B -> result A)
    (g : B -> result (list C)) (h : A -> C -> A) :
  (∀ a x, f a x = rbind (g x) (λ ys, Ok (foldl h a ys))) →
  ∀ l a, foldlM f a l = rbind (collect g l) (λ ys, Ok (foldl h a ys)).
Proof.
  intros Hf. induction l as [|x l IH]; intros a; simpl; [done|].
  rewrite Hf. destruct (g x) as [ys| |]; simpl; [|done..].
  rewrite IH. destruct (collect g l) as [ys'| |]; simpl; [|done..].
  by rewrite foldl_app.
Qed.

(** ** Replaying the recorded declarations *)

Lemma replay_snoc events e m :
  replay (events ++ [e]) m = addTag e.1 e.2 (replay events m).
Proof. unfold replay. by rewrite foldl_app. Qed.

Lemma replay_app events1 events2 m :
  replay (events1 ++ events2) m = replay events2 (replay events1 m).
Proof. unfold replay. by rewrite foldl_app. Qed.

Lemma replay_keys tagName keys m :
  foldl (λ m key, addTag key tagName m) m keys
  = replay ((λ key, (key, tagName)) <$> keys) m.
Proof.
  revert m. induction keys as [|key keys IH]; intros m; simpl; [done|].
  by rewrite IH.
Qed.

Lemma tagsFor_app key events1 events2 :
  tagsFor key (events1 ++ events2)
  = tagsFor key events1 ++ tagsFor key events2.
Proof. unfold tagsFor. by rewrite filter_app, fmap_app. Qed.

Lemma tagsFor_cons key e events :
  tagsFor key (e :: events)
  = (if decide (e.1 = key) then [e.2] else []) ++ tagsFor key events.
Proof.
  unfold tagsFor. rewrite filter_cons. by destruct (decide (e.1 = key)).
Qed.

Lemma tagsFor_singleton key e :
  tagsFor key [e] = if decide (e.1 = key) then [e.2] else [].
Proof. rewrite tagsFor_cons. apply app_nil_r. Qed.

Lemma elem_of_tagsFor key t events :
  t ∈ tagsFor key events ↔ (key, t) ∈ events.
Proof.
  unfold tagsFor. rewrite list_elem_of_fmap. split.
  - intros ([k' t'] & -> & [Hk Hin]%list_elem_of_filter). simpl in *.
    by subst k'.
  - intros Hin. exists (key, t). split; [done|].
    by apply list_elem_of_filter.
Qed.

Lemma tagsFor_keys key tagName keys :
  tagsFor key ((λ k, (k, tagName)) <$> keys)
  = replicate (occurrences key keys) tagName.
Proof.
  induction keys as [|k keys IH]; [done|].
  rewrite fmap_cons, tagsFor_cons, occurrences_cons, IH. simpl.
  by destruct (decide (k = key)).
Qed.

Lemma tagsFor_concat key (ess : list (list (string * string))) :
  tagsFor key (concat ess) = concat (tagsFor key <$> ess).
Proof.
  induction ess as [|es ess IH]; [done|].
  simpl. by rewrite tagsFor_app, IH.
Qed.

(** The tag string of a key is the join of the tags recorded for it, in
    the order of recording. *)
Lemma replay_lookup key events :
  Forall (λ e, e.2 ≠ "") events →
  replay events ∅ !! key
  = match tagsFor key events with
    | [] => None
    | ts => Some (String.concat ", " ts)
    end.
Proof.
  induction events as [|e events IH] using rev_ind; intros Hne.
  - unfold replay. simpl. by rewrite lookup_empty.
  - apply Forall_app in Hne as [Hne _].
    specialize (IH Hne).
    rewrite replay_snoc, tagsFor_app, tagsFor_singleton. unfold addTag.
    destruct (decide (e.1 = key)) as [<-|Hkey].
    + rewrite lookup_insert_eq, IH.
      destruct (tagsFor e.1 events) as [|t0 ts] eqn:Hts; [done|].
      assert (t0 ≠ "") as Ht0.
      { assert (t0 ∈ tagsFor e.1 events) as Hin by (rewrite Hts; by left).
        apply elem_of_tagsFor in Hin.
        by apply (proj1 (Forall_forall _ _) Hne) in Hin. }
      unfold appendTag.
      rewrite decide_False by by apply concat_nonempty.
      by rewrite <- concat_snoc.
    + rewrite lookup_insert_ne by done. by rewrite app_nil_r.
Qed.

(** Without any assumption on the tags, a tag string is still the join
    of some of the tags recorded for its key. *)
Lemma replay_lookup_Some key tns events :
  replay events ∅ !! key = Some tns →
  ∃ ts, ts ≠ [] ∧ tns = String.concat ", " ts
        ∧ ∀ t, t ∈ ts → (key, t) ∈ events.
Proof.
  revert tns.
  induction events as [|e events IH] using rev_ind; intros tns.
  - unfold replay. simpl. by rewrite lookup_empty.
  - rewrite replay_snoc. unfold addTag.
    destruct (decide (e.1 = key)) as [<-|Hkey].
    + rewrite lookup_insert_eq. intros [= <-].
      assert ((e.1, e.2) ∈ events ++ [e]) as Hlast.
      { apply elem_of_app. right. destruct e. by left. }
      unfold appendTag.
      destruct (replay events ∅ !! e.1) as [old|] eqn:Hold.
      * destruct (decide (old = "")) as [->|Hne].
        -- exists [e.2]. repeat split; [done|].
           by intros t ->%list_elem_of_singleton.
        -- destruct (IH old eq_refl) as (ts & Hts & -> & Hin).
           exists (ts ++ [e.2]). split; [by destruct ts|].
           split; [by rewrite concat_snoc|].
           intros t [Ht | ->%list_elem_of_singleton]%elem_of_app; [|done].
           apply elem_of_app. left. by apply Hin.
      * exists [e.2]. repeat split; [done|].
        by intros t ->%list_elem_of_singleton.
    + rewrite lookup_insert_ne by done. intros Hlook.
      destruct (IH tns Hlook) as (ts & Hts & -> & Hin).
      exists ts. repeat split; [done|].
      intros t Ht. apply elem_of_app. left. by apply Hin.
Qed.

(** ** The walk over a batch *)

Section Walk.
Context `{GoLib}.

Lemma walkFile_keys tagName m fileAst :
  walkFile tagName m fileAst
  = rbind (fileKeys fileAst)
          (λ keys, Ok (foldl (λ m key, addTag key tagName m) m keys)).
Proof.
  unfold walkFile, fileKeys.
  apply (foldlM_collect (walkDecl tagName) declKeys
           (λ m key, addTag key tagName m)).
  intros a x. apply walkDecl_keys.
Qed.

Lemma walkBatch_keys tagName m astMap :
  walkBatch tagName m astMap
  = rbind (batchKeys astMap)
          (λ keys, Ok (replay ((λ key, (key, tagName)) <$> keys) m)).
Proof.
  unfold walkBatch, batchKeys.
  rewrite (foldlM_collect (λ m entry, walkFile tagName m entry.2)
             (λ entry, fileKeys entry.2) (λ m key, addTag key tagName m)).
  - destruct (collect _ astMap); simpl; [|done..]. by rewrite replay_keys.
  - intros a x. apply walkFile_keys.
Qed.

(** The walk returns or panics; it never returns an error. *)
Lemma collect_declKeys_not_Err decls e : collect declKeys decls ≠ Err e.
Proof.
  induction decls as [|decl decls IH]; simpl; [done|].
  destruct decl as [|d|d]; simpl.
  - by destruct (collect declKeys decls).
  - by destruct (collect declKeys decls).
  - unfold getReceiverType.
    destruct (ast.Recv d) as [recv|]; simpl.
    + destruct (ast.FieldList_List recv !! 0%nat) as [field|]; simpl; [|done].
      destruct (format_Node _); simpl; by destruct (collect declKeys decls).
    + by destruct (collect declKeys decls).
Qed.

Lemma batchKeys_not_Err astMap e : batchKeys astMap ≠ Err e.
Proof.
  unfold batchKeys.
  induction astMap as [|entry astMap IH]; simpl; [done|].
  unfold fileKeys at 1.
  destruct (collect declKeys _) as [keys|e'|] eqn:Hkeys; simpl.
  - by destruct (collect _ astMap).
  - by apply collect_declKeys_not_Err in Hkeys.
  - done.
Qed.

(** The walk returns on files whose receivers list a field. *)
Lemma fileKeys_listed fileAst :
  listedFile fileAst → ∃ keys, fileKeys fileAst = Ok keys.
Proof.
  unfold listedFile, fileKeys.
  induction (ast.Decls fileAst) as [|decl decls IH]; intros Hlisted; simpl.
  - by eauto.
  - destruct IH as [keys' Hkeys'].
    { intros d Hd. apply Hlisted. by right. }
    rewrite Hkeys'.
    destruct decl as [|d|d]; simpl; [by eauto..|].
    destruct (getReceiverType_listed d) as [text ->]; [|simpl; by eauto].
    apply Hlisted. by left.
Qed.

Lemma batchKeys_listed astMap :
  Forall (λ entry, listedFile entry.2) astMap →
  ∃ keys, batchKeys astMap = Ok keys.
Proof.
  unfold batchKeys. induction 1 as [|entry astMap Hentry _ [keys' Hkeys']];
    simpl; [by eauto|].
  destruct (fileKeys_listed _ Hentry) as [keys ->]. rewrite Hkeys'.
  simpl. by eauto.
Qed.

(** The number of declarations of a key in a batch that was walked. *)
Lemma batchKeys_occurrences key astMap keys :
  batchKeys astMap = Ok keys →
  occurrences key keys = sum_list (declaredIn key <$> astMap.*2).
Proof.
  unfold batchKeys. revert keys.
  induction astMap as [|entry astMap IH]; intros keys; simpl.
  - by intros [= <-].
  - unfold declaredIn at 1.
    destruct (fileKeys entry.2) as [ks| |]; simpl; [|done..].
    destruct (collect _ astMap) as [ks'| |]; simpl; [|done..].
    intros [= <-]. by rewrite occurrences_app, (IH ks').
Qed.

End Walk.

(** ** The loader *)

Section Loader.
Context `{GoLib}.

Lemma reads_parseFile c filename : reads (parseFile c filename) = [filename].
Proof.
  unfold parseFile, vfs_ReadFile. simpl.
  by destruct (fs c filename) as [src|e|].
Qed.

(** [parseFile] reads the file, scrubs it and parses the result. *)
Lemma loadOne_spec c filename :
  loadOne c filename
  = rbind (fs c filename) (λ src,
      parser_ParseFile filename
        (Sanitizer.replaceLinePrefixCommentsWithBlankLine src)).
Proof.
  unfold loadOne, parseFile, vfs_ReadFile. simpl.
  by destruct (fs c filename) as [src|e|].
Qed.

Lemma parseFiles_from_cons c relpath abspath f names files0 :
  parseFiles_from c relpath abspath (f :: names) files0
  = iobind (parseFile c (path_Join abspath f)) (λ file,
      parseFiles_from c relpath abspath names
                      (<[path_Join relpath f := file]> files0)).
Proof. reflexivity. Qed.

(** What a successful batch has read and holds. *)
Lemma parseFiles_from_ok c relpath abspath names files0 astMap :
  outcome (parseFiles_from c relpath abspath names files0) = Ok astMap →
  reads (parseFiles_from c relpath abspath names files0)
    = path_Join abspath <$> names
  ∧ (∀ key, is_Some (astMap !! key)
            ↔ is_Some (files0 !! key) ∨ key ∈ path_Join relpath <$> names)
  ∧ (∀ key tree, astMap !! key = Some tree →
       files0 !! key = Some tree
       ∨ ∃ f, f ∈ names ∧ key = path_Join relpath f
              ∧ loadOne c (path_Join abspath f) = Ok tree).
Proof.
  revert files0.
  induction names as [|f names IH]; intros files0.
  - simpl. intros [= <-]. repeat split.
    + by left.
    + intros [?|Hin]; [done|]. by apply elem_of_nil in Hin.
    + by left.
  - rewrite parseFiles_from_cons, outcome_iobind, reads_iobind.
    rewrite reads_parseFile.
    fold (loadOne c (path_Join abspath f)).
    destruct (loadOne c (path_Join abspath f)) as [file| |] eqn:Hload;
      cbn [rbind]; [|done..].
    intros Hrest. destruct (IH _ Hrest) as (Hreads & Hdom & Hval).
    split; [by rewrite Hreads|]. split.
    + intros key. rewrite Hdom, fmap_cons, elem_of_cons.
      destruct (decide (path_Join relpath f = key)) as [<-|Hne].
      * rewrite lookup_insert_eq. split; [|by eauto].
        intros _. right. by left.
      * rewrite lookup_insert_ne by done. intuition congruence.
    + intros key tree Hkey.
      destruct (Hval key tree Hkey) as [Hold | (g & Hg & -> & Hgload)].
      * destruct (decide (path_Join relpath f = key)) as [<-|Hne].
        -- rewrite lookup_insert_eq in Hold. injection Hold as <-.
           right. exists f. split; [by left|done].
        -- rewrite lookup_insert_ne in Hold by done. by left.
      * right. exists g. split; [by right|done].
Qed.

(** The batch stops at the first file that cannot be loaded. *)
Lemma parseFiles_from_fail c relpath abspath pre f post files0 e :
  Forall (λ g, ∃ tree, loadOne c (path_Join abspath g) = Ok tree) pre →
  loadOne c (path_Join abspath f) = Err e →
  parseFiles_from c relpath abspath (pre ++ f :: post) files0
  = (path_Join abspath <$> (pre ++ [f]), Err e).
Proof.
  intros Hpre Hf. revert files0.
  induction Hpre as [|g pre [tree Hg] Hpre IH]; intros files0.
  - simpl app. rewrite (IO_eta (parseFiles_from _ _ _ _ _)).
    rewrite parseFiles_from_cons, reads_iobind, outcome_iobind.
    rewrite reads_parseFile.
    fold (loadOne c (path_Join abspath f)). by rewrite Hf.
  - change ((g :: pre) ++ f :: post) with (g :: (pre ++ f :: post)).
    rewrite (IO_eta (parseFiles_from _ _ _ _ _)).
    rewrite parseFiles_from_cons, reads_iobind, outcome_iobind.
    rewrite reads_parseFile.
    fold (loadOne c (path_Join abspath g)). rewrite Hg. cbn [rbind].
    by rewrite IH.
Qed.

(** Whatever the outcome, only the listed names are read. *)
Lemma parseFiles_from_reads c relpath abspath names files0 p :
  p ∈ reads (parseFiles_from c relpath abspath names files0) →
  p ∈ path_Join abspath <$> names.
Proof.
  revert files0.
  induction names as [|f names IH]; intros files0.
  - simpl. by intros ?%elem_of_nil.
  - rewrite parseFiles_from_cons, reads_iobind, reads_parseFile.
    rewrite fmap_cons.
    intros [Hp|Hp]%elem_of_app.
    + apply list_elem_of_singleton in Hp as ->. by left.
    + right. destruct (outcome _) as [file| |]; [|by apply elem_of_nil in Hp..].
      by apply IH in Hp.
Qed.

Lemma loadOne_not_Panic c filename :
  soundLibrary c → loadOne c filename ≠ Panic.
Proof.
  intros (Hfs & Hparse & _). rewrite loadOne_spec.
  pose proof (Hfs filename) as Hread.
  destruct (fs c filename) as [src| |]; simpl; [|done..].
  apply Hparse.
Qed.

Lemma loadOne_listed c filename tree :
  soundLibrary c → loadOne c filename = Ok tree → listedFile tree.
Proof.
  intros (_ & _ & Hlisted). rewrite loadOne_spec.
  destruct (fs c filename) as [src| |]; simpl; [|done..].
  apply Hlisted.
Qed.

Lemma parseFiles_from_not_Panic c relpath abspath names files0 :
  soundLibrary c →
  outcome (parseFiles_from c relpath abspath names files0) ≠ Panic.
Proof.
  intros Hsound. revert files0.
  induction names as [|f names IH]; intros files0; [done|].
  rewrite parseFiles_from_cons, outcome_iobind.
  fold (loadOne c (path_Join abspath f)).
  pose proof (loadOne_not_Panic c (path_Join abspath f) Hsound) as Hload.
  destruct (loadOne c (path_Join abspath f)); cbn [rbind]; [|done..].
  apply IH.
Qed.

End Loader.

(** ** Grouping the files by tag *)

Section Classify.
Context `{GoLib}.

Lemma addFile_spec (b : string) (bts : list string)
    (tagToFiles : gmap string (list string)) (tag : string) :
  let res := foldl (λ tagToFiles bt,
                      let f := default [] (tagToFiles !! bt) in
                      let f := f ++ [b] in
                      <[bt := f]> tagToFiles) tagToFiles bts in
  (is_Some (res !! tag) ↔ is_Some (tagToFiles !! tag) ∨ tag ∈ bts)
  ∧ (∀ x, x ∈ filesOf res tag
          ↔ x ∈ filesOf tagToFiles tag ∨ (tag ∈ bts ∧ x = b)).
Proof.
  revert tagToFiles.
  induction bts as [|bt bts IH]; intros tagToFiles; cbn [foldl]; cbv zeta.
  - split; [|intros x]; split; try tauto.
    + intros [?|Hin]; [done|]. by apply elem_of_nil in Hin.
    + intros [?|[Hin _]]; [done|]. by apply elem_of_nil in Hin.
  - destruct (IH (<[bt := default [] (tagToFiles !! bt) ++ [b]]> tagToFiles))
      as [Hsome Hfiles].
    cbv zeta in Hsome, Hfiles. split.
    + rewrite Hsome, elem_of_cons.
      destruct (decide (bt = tag)) as [->|Hne].
      * rewrite lookup_insert_eq. split; [|by eauto]. intros _. right. by left.
      * rewrite lookup_insert_ne by done. intuition congruence.
    + intros x. rewrite Hfiles, elem_of_cons. unfold filesOf.
      destruct (decide (bt = tag)) as [->|Hne].
      * rewrite lookup_insert_eq. simpl.
        rewrite elem_of_app, list_elem_of_singleton. intuition.
      * rewrite lookup_insert_ne by done. intuition congruence.
Qed.

Lemma classifyFile_fold allowed tagToFiles fName fAst :
  classifyFile allowed tagToFiles (fName, fAst)
  = foldl (λ tagToFiles bt,
             let f := default [] (tagToFiles !! bt) in
             let f := f ++ [filepath_Base fName] in
             <[bt := f]> tagToFiles)
          tagToFiles (findBuildTags fAst allowed).1.
Proof.
  unfold classifyFile.
  pose proof (findBuildTags_ok fAst allowed) as Hok.
  destruct (findBuildTags fAst allowed) as [bts ok]. simpl in *.
  destruct ok; [done|].
  destruct bts as [|bt bts]; [done|].
  assert (false = true) as Habs by (by apply Hok). discriminate Habs.
Qed.

Lemma classify_fold_spec allowed entries
    (tagToFiles : gmap string (list string)) (tag : string) :
  let res := foldl (classifyFile allowed) tagToFiles entries in
  (is_Some (res !! tag)
   ↔ is_Some (tagToFiles !! tag)
     ∨ ∃ fName fAst, (fName, fAst) ∈ entries
                     ∧ tag ∈ (findBuildTags fAst allowed).1)
  ∧ (∀ x, x ∈ filesOf res tag
          ↔ x ∈ filesOf tagToFiles tag
            ∨ ∃ fName fAst, (fName, fAst) ∈ entries
                            ∧ tag ∈ (findBuildTags fAst allowed).1
                            ∧ x = filepath_Base fName).
Proof.
  revert tagToFiles.
  induction entries as [|[fName fAst] entries IH]; intros tagToFiles;
    cbn [foldl]; cbv zeta.
  - split; [|intros x]; split; try tauto.
    + intros [?|(? & ? & Hin & _)]; [done|]. by apply elem_of_nil in Hin.
    + intros [?|(? & ? & Hin & _)]; [done|]. by apply elem_of_nil in Hin.
  - destruct (IH (classifyFile allowed tagToFiles (fName, fAst)))
      as [Hsome Hfiles].
    cbv zeta in Hsome, Hfiles.
    rewrite classifyFile_fold in Hsome, Hfiles.
    destruct (addFile_spec (filepath_Base fName)
                (findBuildTags fAst allowed).1 tagToFiles tag)
      as [Hsome1 Hfiles1].
    cbv zeta in Hsome1, Hfiles1. rewrite classifyFile_fold. split.
    + rewrite Hsome, Hsome1. split.
      * intros [[?|Htag]|(f & a & Hin & Htag)]; [by left|right..].
        -- exists fName, fAst. split; [by left|done].
        -- exists f, a. split; [by right|done].
      * intros [?|(f & a & Hin & Htag)]; [by left; left|].
        apply elem_of_cons in Hin as [[= -> ->]|Hin]; [by left; right|].
        right. by exists f, a.
    + intros x. rewrite Hfiles, Hfiles1. split.
      * intros [[?|[Htag ->]]|(f & a & Hin & Htag & ->)]; [by left|right..].
        -- exists fName, fAst. split; [by left|done].
        -- exists f, a. split; [by right|done].
      * intros [?|(f & a & Hin & Htag & ->)]; [by left; left|].
        apply elem_of_cons in Hin as [[= -> ->]|Hin]; [by left; right|].
        right. by exists f, a.
Qed.

(** The entries of [tagToFiles]: a tag has an entry when some file
    mentions it, and its group lists the base names of those files. *)
Lemma classify_spec (s : Schedule) files allowed tag :
  admissible s →
  (is_Some (classify s files allowed !! tag)
   ↔ ∃ fName fAst, files !! fName = Some fAst
                   ∧ tag ∈ (findBuildTags fAst allowed).1)
  ∧ (∀ x, x ∈ filesOf (classify s files allowed) tag
          ↔ ∃ fName fAst, files !! fName = Some fAst
                          ∧ tag ∈ (findBuildTags fAst allowed).1
                          ∧ x = filepath_Base fName).
Proof.
  intros (Hfiles & _ & _). unfold classify.
  destruct (classify_fold_spec allowed (order_files s (map_to_list files))
              ∅ tag) as [Hsome Hin].
  cbv zeta in Hsome, Hin. split.
  - rewrite Hsome, lookup_empty. split.
    + intros [[? ?]|(f & a & Hfa & Htag)]; [done|].
      exists f, a. split; [|done].
      by rewrite Hfiles, elem_of_map_to_list in Hfa.
    + intros (f & a & Hfa & Htag). right. exists f, a. split; [|done].
      by rewrite Hfiles, elem_of_map_to_list.
  - intros x. rewrite Hin. unfold filesOf at 1. rewrite lookup_empty. split.
    + intros [Hnil|(f & a & Hfa & Htag & ->)];
        [by apply elem_of_nil in Hnil|].
      exists f, a. split; [|done].
      by rewrite Hfiles, elem_of_map_to_list in Hfa.
    + intros (f & a & Hfa & Htag & ->). right. exists f, a. split; [|done].
      by rewrite Hfiles, elem_of_map_to_list.
Qed.

(** Every tag of [tagToFiles] is an allowed tag. *)
Lemma classify_allowed (s : Schedule) files allowed tag names :
  classify s files allowed !! tag = Some names → tag ∈ allowed.
Proof.
  intros Hlook. unfold classify in Hlook.
  destruct (classify_fold_spec allowed (order_files s (map_to_list files))
              ∅ tag) as [Hsome _].
  cbv zeta in Hsome.
  destruct (proj1 Hsome) as [Hempty|(f & a & _ & Htag)]; [by eauto| |].
  - rewrite lookup_empty in Hempty. by destruct Hempty.
  - by apply findBuildTags_allowed in Htag.
Qed.

End Classify.

(** ** The loop over the tags *)

Section TagLoop.
Context `{GoLib}.
Variables (s : Schedule) (c : Corpus) (relpath abspath : string).

Lemma tagLoop_cons_outcome tagName fileNames tags m :
  outcome (tagLoop s c relpath abspath ((tagName, fileNames) :: tags) m)
  = rbind (match outcome (parseFiles c relpath abspath fileNames) with
           | Err e => Err (wrapError abspath fileNames e)
           | r => r
           end)
      (λ astMap,
         rbind (walkBatch tagName m (order_batch s tagName (map_to_list astMap)))
               (λ m', outcome (tagLoop s c relpath abspath tags m'))).
Proof.
  cbn [tagLoop]. rewrite outcome_iobind, outcome_iowrap.
  destruct (outcome (parseFiles c relpath abspath fileNames));
    cbn [rbind]; [|done..].
  by rewrite outcome_iobind.
Qed.

Lemma tagLoop_cons_reads tagName fileNames tags m :
  reads (tagLoop s c relpath abspath ((tagName, fileNames) :: tags) m)
  = reads (parseFiles c relpath abspath fileNames)
    ++ match outcome (parseFiles c relpath abspath fileNames) with
       | Ok astMap =>
           match walkBatch tagName m
                   (order_batch s tagName (map_to_list astMap)) with
           | Ok m' => reads (tagLoop s c relpath abspath tags m')
           | _ => []
           end
       | _ => []
       end.
Proof.
  cbn [tagLoop]. rewrite reads_iobind, reads_iowrap, outcome_iowrap.
  destruct (outcome (parseFiles c relpath abspath fileNames));
    [|done..].
  rewrite reads_iobind. simpl.
  by destruct (walkBatch _ _ _).
Qed.

(** A run of the loop that returns has recorded the declarations of
    every entry, in order. *)
Lemma tagLoop_ok tags m m' :
  outcome (tagLoop s c relpath abspath tags m) = Ok m' →
  ∃ ess, Forall2 (λ entry es, tagEvents s c relpath abspath entry = Some es)
                 tags ess
         ∧ m' = replay (concat ess) m.
Proof.
  revert m. induction tags as [|[tagName fileNames] tags IH]; intros m.
  - simpl. intros [= <-]. exists []. by split.
  - rewrite tagLoop_cons_outcome.
    destruct (outcome (parseFiles c relpath abspath fileNames))
      as [astMap| |] eqn:Hload; cbn [rbind]; [|done..].
    rewrite walkBatch_keys.
    destruct (batchKeys _) as [keys| |] eqn:Hkeys; cbn [rbind]; [|done..].
    intros (ess & Hess & ->)%IH.
    exists (((λ key, (key, tagName)) <$> keys) :: ess). split.
    + constructor; [|done]. unfold tagEvents. simpl. by rewrite Hload, Hkeys.
    + simpl. by rewrite replay_app.
Qed.

Lemma tagLoop_reads tags m p :
  p ∈ reads (tagLoop s c relpath abspath tags m) →
  ∃ tagName fileNames, (tagName, fileNames) ∈ tags
                       ∧ p ∈ path_Join abspath <$> fileNames.
Proof.
  revert m. induction tags as [|[tagName fileNames] tags IH]; intros m.
  - simpl. by intros ?%elem_of_nil.
  - rewrite tagLoop_cons_reads. intros [Hp|Hp]%elem_of_app.
    + exists tagName, fileNames. split; [by left|].
      by apply parseFiles_from_reads in Hp.
    + destruct (outcome _) as [astMap| |]; [|by apply elem_of_nil in Hp..].
      destruct (walkBatch _ _ _) as [m'| |]; [|by apply elem_of_nil in Hp..].
      destruct (IH _ Hp) as (t & fs & Hin & Hfs).
      exists t, fs. split; [by right|done].
Qed.

(** An error of the loop is the wrapped error of a batch. *)
Lemma tagLoop_Err tags m e :
  outcome (tagLoop s c relpath abspath tags m) = Err e →
  ∃ tagName fileNames e0,
    (tagName, fileNames) ∈ tags
    ∧ outcome (parseFiles c relpath abspath fileNames) = Err e0
    ∧ e = wrapError abspath fileNames e0.
Proof.
  revert m. induction tags as [|[tagName fileNames] tags IH]; intros m.
  - done.
  - rewrite tagLoop_cons_outcome.
    destruct (outcome (parseFiles c relpath abspath fileNames))
      as [astMap|e0|] eqn:Hload; cbn [rbind]; [| |done].
    + rewrite walkBatch_keys.
      destruct (batchKeys _) as [keys|e'|] eqn:Hkeys; cbn [rbind]; [| |done].
      * intros (t & fs & e0 & Hin & Hfs & ->)%IH.
        exists t, fs, e0. split; [by right|done].
      * by apply batchKeys_not_Err in Hkeys.
    + intros [= <-]. exists tagName, fileNames, e0. split; [by left|done].
Qed.

(** A batch that fails to load keeps the loop from returning a map. *)
Lemma tagLoop_not_Ok tags m m' tagName fileNames e0 :
  (tagName, fileNames) ∈ tags →
  outcome (parseFiles c relpath abspath fileNames) = Err e0 →
  outcome (tagLoop s c relpath abspath tags m) ≠ Ok m'.
Proof.
  intros Hin Hfail. revert m.
  induction tags as [|[t fs] tags IH]; intros m.
  - by apply elem_of_nil in Hin.
  - rewrite tagLoop_cons_outcome.
    apply elem_of_cons in Hin as [[= <- <-]|Hin].
    + by rewrite Hfail.
    + destruct (outcome (parseFiles c relpath abspath fs)); cbn [rbind];
        [|done..].
      destruct (walkBatch _ _ _); cbn [rbind]; [|done..].
      by apply IH.
Qed.

(** With a sound library the loop does not panic. *)
Lemma tagLoop_not_Panic tags m :
  admissible s → soundLibrary c →
  outcome (tagLoop s c relpath abspath tags m) ≠ Panic.
Proof.
  intros (_ & _ & Hbatch) Hsound. revert m.
  induction tags as [|[tagName fileNames] tags IH]; intros m; [done|].
  rewrite tagLoop_cons_outcome.
  pose proof (parseFiles_from_not_Panic c relpath abspath fileNames ∅ Hsound)
    as Hload.
  fold (parseFiles c relpath abspath fileNames) in Hload.
  destruct (outcome (parseFiles c relpath abspath fileNames))
    as [astMap| |] eqn:Hok; cbn [rbind]; [|done..].
  rewrite walkBatch_keys.
  destruct (batchKeys_listed (order_batch s tagName (map_to_list astMap)))
    as [keys ->].
  { apply Forall_forall. intros [key tree].
    rewrite Hbatch, elem_of_map_to_list. intros Hkey.
    destruct (parseFiles_from_ok _ _ _ _ _ _ Hok) as (_ & _ & Hval).
    destruct (Hval key tree Hkey) as [Hempty|(f & _ & _ & Hf)].
    - by rewrite lookup_empty in Hempty.
    - by apply (loadOne_listed c _ _ Hsound Hf). }
  cbn [rbind]. apply IH.
Qed.

(** The tag of every recorded declaration is the tag of an entry. *)
Lemma events_tags tags ess key t :
  Forall2 (λ entry es, tagEvents s c relpath abspath entry = Some es)
          tags ess →
  (key, t) ∈ concat ess → ∃ fileNames, (t, fileNames) ∈ tags.
Proof.
  induction 1 as [|[tagName fileNames] es tags ess Hes _ IH]; simpl.
  - by intros ?%elem_of_nil.
  - intros [Hin|Hin]%elem_of_app.
    + unfold tagEvents in Hes. simpl in Hes.
      destruct (outcome _) as [astMap| |]; [|done..].
      destruct (batchKeys _) as [keys| |]; [|done..].
      injection Hes as <-.
      apply list_elem_of_fmap in Hin as (k & [= -> ->] & _).
      exists fileNames. by left.
    + destruct (IH Hin) as (fs & Hfs). exists fs. by right.
Qed.

(** Counting the tags recorded for a key, entry by entry. *)
Lemma events_count tags ess key t :
  admissible s →
  Forall2 (λ entry es, tagEvents s c relpath abspath entry = Some es)
          tags ess →
  occurrences t (tagsFor key (concat ess))
  = sum_list (entryCount c relpath abspath key t <$> tags).
Proof.
  intros (_ & _ & Hbatch).
  induction 1 as [|[tagName fileNames] es tags ess Hes _ IH]; [done|].
  simpl concat. rewrite tagsFor_app, occurrences_app, IH, fmap_cons.
  simpl sum_list. f_equal.
  unfold tagEvents in Hes. unfold entryCount. simpl in *.
  destruct (outcome _) as [astMap| |]; [|done..].
  destruct (batchKeys _) as [keys| |] eqn:Hkeys; [|done..].
  injection Hes as <-.
  rewrite tagsFor_keys, occurrences_replicate.
  destruct (decide (tagName = t)); [|done].
  rewrite (batchKeys_occurrences _ _ _ Hkeys).
  by rewrite (Hbatch tagName (map_to_list astMap)).
Qed.

End TagLoop.

(** ** The mapper *)

Section Mapper.
Context `{GoLib}.
Variables (s : Schedule) (c : Corpus) (files : gmap string ast.File).
Variables (relpath abspath : string) (ctxt : build.Context).
Hypothesis Hadm : admissible s.

Lemma entryCount_sum key t (tags : list (string * list string)) :
  NoDup tags.*1 →
  sum_list (entryCount c relpath abspath key t <$> tags)
  = match (list_to_map tags : gmap string (list string)) !! t with
    | Some fileNames =>
        match outcome (parseFiles c relpath abspath fileNames) with
        | Ok astMap => sum_list (declaredIn key <$> (map_to_list astMap).*2)
        | _ => 0%nat
        end
    | None => 0%nat
    end.
Proof.
  induction tags as [|[t1 n1] tags IH]; intros Hnodup; [done|].
  rewrite fmap_cons in Hnodup. apply NoDup_cons in Hnodup as [Hfresh Hnodup].
  rewrite fmap_cons. simpl sum_list. simpl list_to_map.
  rewrite (IH Hnodup). unfold entryCount at 1. simpl.
  destruct (decide (t1 = t)) as [->|Hne].
  - rewrite lookup_insert_eq.
    rewrite (not_elem_of_list_to_map_1 _ _ Hfresh). lia.
  - by rewrite lookup_insert_ne.
Qed.

(** The entries visited by the second loop. *)
Lemma scheduled_tags tagName fileNames :
  (tagName, fileNames)
    ∈ order_tags s (map_to_list (classify s files (build.BuildTags ctxt)))
  ↔ classify s files (build.BuildTags ctxt) !! tagName = Some fileNames.
Proof.
  destruct Hadm as (_ & Htags & _).
  by rewrite Htags, elem_of_map_to_list.
Qed.

Lemma scheduled_tags_NoDup :
  NoDup (order_tags s
           (map_to_list (classify s files (build.BuildTags ctxt)))).*1.
Proof.
  destruct Hadm as (_ & Htags & _).
  rewrite Htags. apply NoDup_fst_map_to_list.
Qed.

Lemma scheduled_tags_to_map :
  list_to_map
    (order_tags s (map_to_list (classify s files (build.BuildTags ctxt))))
  = classify s files (build.BuildTags ctxt).
Proof.
  destruct Hadm as (_ & Htags & _).
  rewrite <- (list_to_map_to_list (classify s files (build.BuildTags ctxt)))
    at 2.
  apply list_to_map_proper; [|apply Htags].
  apply scheduled_tags_NoDup.
Qed.

(** A run that returns a map has replayed the declarations of all
    entries of [tagToFiles]. *)
Lemma mapIdentifierToBuildTag_ok m :
  outcome (mapIdentifierToBuildTag s c files relpath abspath ctxt) = Ok m →
  ∃ ess,
    Forall2 (λ entry es, tagEvents s c relpath abspath entry = Some es)
      (order_tags s (map_to_list (classify s files (build.BuildTags ctxt))))
      ess
    ∧ m = replay (concat ess) ∅.
Proof.
  unfold mapIdentifierToBuildTag. cbv zeta.
  destruct (size _ =? 0)%nat eqn:Hsize.
  - apply Nat.eqb_eq, map_size_empty_iff in Hsize.
    rewrite Hsize, map_to_list_empty.
    destruct Hadm as (_ & Htags & _).
    pose proof (Htags []) as Hnil. apply Permutation_nil_r in Hnil.
    rewrite Hnil. simpl. intros [= <-]. exists []. by split.
  - apply tagLoop_ok.
Qed.

(** C1, amended. The tag string of a key lists a tag once for every
    declaration of the key in the files re-loaded for that tag, without
    deduplication; so, for allowed tags that are not empty and do not
    contain the separator, a tag is listed at most once exactly for the
    keys declared at most once across the files of its group. *)
Theorem tags_listed_per_declaration (m : gmap string string)
    (Hnonempty : "" ∉ build.BuildTags ctxt)
    (Hplain : Forall plainTag (build.BuildTags ctxt))
    (Hrun : outcome (mapIdentifierToBuildTag s c files relpath abspath ctxt)
            = Ok m) :
  ∀ key tagName,
    occurrences tagName (listedTags m key)
    = declared s c files relpath abspath ctxt key tagName.
Proof.
  intros key tagName.
  destruct (mapIdentifierToBuildTag_ok m Hrun) as (ess & Hess & ->).
  assert (∀ k t, (k, t) ∈ concat ess → t ∈ build.BuildTags ctxt) as Htags.
  { intros k t Hin.
    destruct (events_tags _ _ _ _ _ _ _ _ Hess Hin) as (fileNames & Hentry).
    apply scheduled_tags in Hentry. by apply classify_allowed in Hentry. }
  assert (listedTags (replay (concat ess) ∅) key = tagsFor key (concat ess))
    as ->.
  { unfold listedTags. rewrite replay_lookup.
    - destruct (tagsFor key (concat ess)) as [|t0 ts] eqn:Hts; [done|].
      apply renderedTags_concat; [done|].
      apply Forall_forall. intros t Ht. rewrite <- Hts in Ht.
      apply elem_of_tagsFor, Htags in Ht.
      by apply (proj1 (Forall_forall _ _) Hplain).
    - apply Forall_forall. intros [k t] Hin Hempty. simpl in Hempty. subst t.
      by apply Htags in Hin. }
  rewrite (events_count s c relpath abspath _ _ key tagName Hadm Hess).
  rewrite entryCount_sum by apply scheduled_tags_NoDup.
  by rewrite scheduled_tags_to_map.
Qed.

(** C8. A token that is not an allowed tag is not returned by the
    extractor for any file and, for allowed tags that do not contain the
    separator, is not listed in any tag string of the map the mapper
    returns. *)
Theorem disallowed_token_never_listed (m : gmap string string)
    (token : string)
    (Hplain : Forall plainTag (build.BuildTags ctxt))
    (Hrun : outcome (mapIdentifierToBuildTag s c files relpath abspath ctxt)
            = Ok m)
    (Hnot : token ∉ build.BuildTags ctxt) :
  (∀ fAst, token ∉ (findBuildTags fAst (build.BuildTags ctxt)).1)
  ∧ (∀ key tns, m !! key = Some tns → token ∉ renderedTags tns).
Proof.
  split.
  - intros fAst Hin. by apply findBuildTags_allowed in Hin.
  - intros key tns Hlook Hin.
    destruct (mapIdentifierToBuildTag_ok m Hrun) as (ess & Hess & ->).
    destruct (replay_lookup_Some _ _ _ Hlook) as (ts & Hts & -> & Hevents).
    assert (∀ t, t ∈ ts → t ∈ build.BuildTags ctxt) as Htags.
    { intros t Ht. apply Hevents in Ht.
      destruct (events_tags _ _ _ _ _ _ _ _ Hess Ht) as (fileNames & Hentry).
      apply scheduled_tags in Hentry. by apply classify_allowed in Hentry. }
    rewrite renderedTags_concat in Hin; [by apply Hnot, Htags|done|].
    apply Forall_forall. intros t Ht.
    by apply (proj1 (Forall_forall _ _) Hplain), Htags.
Qed.

(** C6. A batch that loads returns a map with one key for each name,
    joined onto [relpath], whose tree was read from the name joined onto
    [abspath], scrubbed and parsed; a batch stops at the first name that
    cannot be read or parsed and returns that error and no map.  When
    the batch of a tag fails, the mapper returns no map; an error of the
    mapper is the error of a batch, followed by [abspath] and the file
    names of the batch; and with a file system and a parser that do not
    panic, a failing batch makes the mapper return such an error. *)
Theorem loading_fails_fast :
  (∀ fileNames astMap,
     outcome (parseFiles c relpath abspath fileNames) = Ok astMap →
     reads (parseFiles c relpath abspath fileNames)
       = path_Join abspath <$> fileNames
     ∧ (∀ key, is_Some (astMap !! key)
               ↔ key ∈ path_Join relpath <$> fileNames)
     ∧ (∀ key tree, astMap !! key = Some tree →
          ∃ f src, f ∈ fileNames ∧ key = path_Join relpath f
                   ∧ fs c (path_Join abspath f) = Ok src
                   ∧ parser_ParseFile (path_Join abspath f)
                       (Sanitizer.replaceLinePrefixCommentsWithBlankLine src)
                     = Ok tree))
  ∧ (∀ filename e,
       loadOne c filename = Err e
       ↔ fs c filename = Err e
         ∨ ∃ src, fs c filename = Ok src
                  ∧ parser_ParseFile filename
                      (Sanitizer.replaceLinePrefixCommentsWithBlankLine src)
                    = Err e)
  ∧ (∀ pre f post e,
       Forall (λ g, ∃ tree, loadOne c (path_Join abspath g) = Ok tree) pre →
       loadOne c (path_Join abspath f) = Err e →
       parseFiles c relpath abspath (pre ++ f :: post)
       = (path_Join abspath <$> (pre ++ [f]), Err e))
  ∧ (∀ e,
       outcome (mapIdentifierToBuildTag s c files relpath abspath ctxt)
         = Err e →
       ∃ tagName fileNames e0,
         classify s files (build.BuildTags ctxt) !! tagName = Some fileNames
         ∧ outcome (parseFiles c relpath abspath fileNames) = Err e0
         ∧ e = e0 +:+ " in " +:+ strconv_Quote abspath
                  +:+ " with files: " +:+ fmt_strings fileNames)
  ∧ (∀ tagName fileNames e0 m,
       classify s files (build.BuildTags ctxt) !! tagName = Some fileNames →
       outcome (parseFiles c relpath abspath fileNames) = Err e0 →
       outcome (mapIdentifierToBuildTag s c files relpath abspath ctxt)
       ≠ Ok m)
  ∧ (soundLibrary c →
     ∀ tagName fileNames e0,
       classify s files (build.BuildTags ctxt) !! tagName = Some fileNames →
       outcome (parseFiles c relpath abspath fileNames) = Err e0 →
       ∃ e, outcome (mapIdentifierToBuildTag s c files relpath abspath ctxt)
            = Err e).
Proof.
  assert (∀ tagName fileNames e0 m,
       classify s files (build.BuildTags ctxt) !! tagName = Some fileNames →
       outcome (parseFiles c relpath abspath fileNames) = Err e0 →
       outcome (mapIdentifierToBuildTag s c files relpath abspath ctxt)
       ≠ Ok m) as Hnot_ok.
  { intros tagName fileNames e0 m Hentry Hfail.
    unfold mapIdentifierToBuildTag. cbv zeta.
    destruct (size _ =? 0)%nat eqn:Hsize.
    + apply Nat.eqb_eq, map_size_empty_iff in Hsize.
      by rewrite Hsize, lookup_empty in Hentry.
    + eapply tagLoop_not_Ok; [|done]. by apply scheduled_tags. }
  split; [|split; [|split; [|split; [|split; [exact Hnot_ok|]]]]]; cycle 4.
  { intros Hsound tagName fileNames e0 Hentry Hfail.
    destruct (outcome (mapIdentifierToBuildTag s c files relpath abspath ctxt))
      as [m|e|] eqn:Hrun; [|by eauto|].
    - by destruct (Hnot_ok _ _ _ m Hentry Hfail).
    - exfalso. revert Hrun. unfold mapIdentifierToBuildTag. cbv zeta.
      destruct (size _ =? 0)%nat; [done|].
      by apply tagLoop_not_Panic. }
  - intros fileNames astMap Hok.
    destruct (parseFiles_from_ok _ _ _ _ _ _ Hok) as (Hreads & Hdom & Hval).
    split; [done|]. split.
    + intros key. rewrite Hdom, lookup_empty. split; [|by right].
      intros [[? ?]|?]; done.
    + intros key tree Hkey.
      destruct (Hval key tree Hkey) as [Hempty|(f & Hf & -> & Hload)].
      { by rewrite lookup_empty in Hempty. }
      rewrite loadOne_spec in Hload.
      destruct (fs c (path_Join abspath f)) as [src| |] eqn:Hsrc; [|done..].
      exists f, src. by repeat split.
  - intros filename e. rewrite loadOne_spec.
    destruct (fs c filename) as [src|e'|]; simpl.
    + split; [intros Hp; right; by exists src|].
      intros [?|(src' & [= <-] & ?)]; done.
    + split; [intros [= ->]; by left|].
      intros [[= ->]|(src' & ? & _)]; done.
    + split; [done|]. intros [?|(src' & ? & _)]; done.
  - intros pre f post e Hpre Hf. by apply parseFiles_from_fail.
  - intros e. unfold mapIdentifierToBuildTag. cbv zeta.
    destruct (size _ =? 0)%nat; [done|].
    intros (t & fileNames & e0 & Hin & Hfail & ->)%tagLoop_Err.
    exists t, fileNames, e0. split; [by apply scheduled_tags|done].
Qed.

End Mapper.

(** ** The properties on the corpora *)

(** C1, as stated, fails: [init] is declared in both files of the group
    of [linux], and [linux] is listed twice for it. *)
Lemma tag_listed_twice :
  ¬ (∀ key tns tagName,
       tagMapAt (@mapIdentifierToBuildTag TwoInits.golib Concrete.forwards
                   TwoInits.c TwoInits.files "" "/net" TwoInits.ctxt) key
       = Some tns →
       (occurrences tagName (renderedTags tns) ≤ 1)%nat).
Proof.
  intros Honce.
  assert (tagMapAt (@mapIdentifierToBuildTag TwoInits.golib Concrete.forwards
                      TwoInits.c TwoInits.files "" "/net" TwoInits.ctxt) "init"
          = Some "linux, linux") as Hinit by (vm_compute; reflexivity).
  apply (Honce "init" "linux, linux" "linux") in Hinit.
  vm_compute in Hinit. lia.
Qed.

Lemma tags_listed_per_declaration_witness :
  occurrences "xtag2" (listedTags TestCorpus.tagMap "TestConst")
  = @declared TestCorpus.golib Concrete.backwards TestCorpus.c
      TestCorpus.fast "" "/src" TestCorpus.ctxt "TestConst" "xtag2".
Proof.
  apply (@tags_listed_per_declaration TestCorpus.golib Concrete.backwards
           TestCorpus.c TestCorpus.fast "" "/src" TestCorpus.ctxt
           backwards_admissible TestCorpus.tagMap).
  - intros Hin.
    repeat (apply elem_of_cons in Hin as [Hin|Hin]; [discriminate Hin|]).
    by apply elem_of_nil in Hin.
  - repeat constructor.
  - vm_compute. reflexivity.
Defined.

Lemma disallowed_token_never_listed_witness :
  Variants.tagMap_two !! "TestConst" = Some "xtag2"
  ∧ "xtag3" ∉ renderedTags "xtag2".
Proof.
  assert (Variants.tagMap_two !! "TestConst" = Some "xtag2") as Hlook
    by (vm_compute; reflexivity).
  split; [exact Hlook|].
  refine (proj2 (@disallowed_token_never_listed TestCorpus.golib
                   Concrete.forwards TestCorpus.c TestCorpus.fast "" "/src"
                   Variants.ctxt_two forwards_admissible Variants.tagMap_two
                   "xtag3" _ _ _) "TestConst" "xtag2" Hlook).
  - repeat constructor.
  - vm_compute. reflexivity.
  - intros Hin.
    repeat (apply elem_of_cons in Hin as [Hin|Hin]; [discriminate Hin|]).
    by apply elem_of_nil in Hin.
Defined.

Lemma loading_fails_fast_witness :
  ¬ ∃ m, outcome (@mapIdentifierToBuildTag TestCorpus.golib Concrete.forwards
                    Variants.c_missing TestCorpus.fast "" "/src"
                    TestCorpus.ctxt) = Ok m.
Proof.
  intros [m Hm]. revert Hm.
  apply (proj1 (proj2 (proj2 (proj2 (proj2
           (@loading_fails_fast TestCorpus.golib Concrete.forwards
              Variants.c_missing TestCorpus.fast "" "/src" TestCorpus.ctxt
              forwards_admissible)))))
         "xtag2" ["xtag2.go"] "file does not exist" m).
  - vm_compute. reflexivity.
  - vm_compute. reflexivity.
Defined.

Lemma mapIdentifierToBuildTag_no_tags_witness :
  @mapIdentifierToBuildTag TestCorpus.golib Concrete.forwards TestCorpus.c
    Variants.untagged "" "/src" TestCorpus.ctxt = ([], Ok ∅).
Proof.
  apply (@mapIdentifierToBuildTag_no_tags TestCorpus.golib Concrete.forwards
           TestCorpus.c Variants.untagged "" "/src" TestCorpus.ctxt
           forwards_admissible).
  intros fName fAst Hin. left. unfold Variants.untagged in Hin.
  apply lookup_singleton_Some in Hin as [_ <-].
  vm_compute. reflexivity.
Defined.

Lemma getReceiverType_total_witness :
  ∃ text,
    @getReceiverType TestCorpus.golib
      {| ast.Recv :=
           Some {| ast.FieldList_List :=
                     [ {| ast.Field_Names := [Concrete.ident "a"];
                          ast.Field_Type :=
                            ast.EIdent (Concrete.ident "A") |} ] |};
         ast.FuncDecl_Name := Concrete.ident "String" |} = Ok text.
Proof.
  apply (@getReceiverType_total TestCorpus.golib).
  intros recv [= <-]. discriminate.
Defined.

(** ** The sanitizer returns, and keeps the length of the buffer *)

Module SanitizerFacts.
Import Sanitizer.

Lemma bytes_HasPrefix_length (s prefix : bytes) :
  bytes_HasPrefix s prefix = true → (length prefix ≤ length s)%nat.
Proof.
  revert s. induction prefix as [|p prefix IH]; intros s; simpl; [lia|].
  destruct s as [|b s]; [done|].
  intros [_ Hrest]%andb_true_iff. apply IH in Hrest. simpl. lia.
Qed.

Lemma bytes_Index_eq (s sep : bytes) :
  bytes_Index s sep
  = if bytes_HasPrefix s sep then 0
    else match s with
         | [] => -1
         | _ :: s' =>
             if bytes_Index s' sep <? 0 then -1 else 1 + bytes_Index s' sep
         end.
Proof. by destruct s. Qed.

Lemma bytes_Index_bound (s sep : bytes) :
  0 ≤ bytes_Index s sep →
  (Z.to_nat (bytes_Index s sep) + length sep ≤ length s)%nat.
Proof.
  induction s as [|b s IH]; rewrite bytes_Index_eq;
    destruct (bytes_HasPrefix _ sep) eqn:Hp;
    try (intros _; apply bytes_HasPrefix_length in Hp; simpl in *; lia).
  - lia.
  - destruct (bytes_Index s sep <? 0) eqn:Hneg; [lia|].
    apply Z.ltb_ge in Hneg. intros _. specialize (IH Hneg).
    simpl length. lia.
Qed.

Lemma bytes_Index_zero (s sep : bytes) :
  bytes_Index s sep = 0 → bytes_HasPrefix s sep = true.
Proof.
  rewrite bytes_Index_eq.
  destruct (bytes_HasPrefix s sep); [done|].
  destruct s as [|b s]; [done|].
  destruct (bytes_Index s sep <? 0) eqn:Hneg; [done|].
  apply Z.ltb_ge in Hneg. lia.
Qed.

Lemma blankOut_length fuel buf off i :
  length (blankOut fuel buf off i).1 = length buf.
Proof.
  revert buf i. induction fuel as [|fuel IH]; intros buf i; simpl; [done|].
  destruct (buf !! (off + i)%nat) as [b|]; [|done].
  destruct (Byte.eqb b newline); [done|].
  by rewrite IH, length_insert.
Qed.

Lemma blankOut_ge fuel buf off i : (i ≤ (blankOut fuel buf off i).2)%nat.
Proof.
  revert buf i. induction fuel as [|fuel IH]; intros buf i; simpl; [done|].
  destruct (buf !! (off + i)%nat) as [b|]; [|done].
  destruct (Byte.eqb b newline); [done|].
  specialize (IH (<[(off + i)%nat := space]> buf) (S i)). lia.
Qed.

(** Blanking a line that starts with the marker moves past its first
    byte. *)
Lemma blankOut_marker buf off :
  bytes_HasPrefix (drop off buf) linePrefix = true →
  (1 ≤ (blankOut (length buf) buf off 0).2)%nat.
Proof.
  intros Hp.
  destruct (drop off buf) as [|b rest] eqn:Hdrop; [done|].
  assert (buf !! off = Some b) as Hb.
  { rewrite <- (Nat.add_0_r off), <- lookup_drop, Hdrop. done. }
  assert (b = Byte.x2f) as ->.
  { simpl in Hp. apply andb_true_iff in Hp as [Hb' _].
    by apply Byte.byte_dec_bl in Hb'. }
  destruct (length buf) as [|n] eqn:Hlen.
  { apply lookup_lt_Some in Hb. lia. }
  simpl. rewrite Nat.add_0_r, Hb. simpl.
  pose proof (blankOut_ge n (<[off := space]> buf) off 1). lia.
Qed.

Lemma scrub_length fuel buf off : length (scrub fuel buf off) = length buf.
Proof.
  revert buf off. induction fuel as [|fuel IH]; intros buf off; simpl; [done|].
  destruct (bytes_Index (drop off buf) linePrefix <? 0); [done|].
  destruct (atLineStart _ _ _).
  - destruct (blankOut _ _ _ _) as [buf' i'] eqn:Hblank.
    rewrite IH. by rewrite <- (blankOut_length (length buf) buf off
      (Z.to_nat (bytes_Index (drop off buf) linePrefix))), Hblank.
  - apply IH.
Qed.

(** The result does not depend on the fuel, once there is more of it
    than bytes left in the slice. *)
Lemma scrub_fuel n fuel buf off :
  (length buf - off < n)%nat → (n ≤ fuel)%nat →
  scrub fuel buf off = scrub n buf off.
Proof.
  revert fuel buf off.
  induction n as [|n IH]; intros fuel buf off Hlt Hle; [lia|].
  destruct fuel as [|fuel]; [lia|]. simpl.
  destruct (bytes_Index (drop off buf) linePrefix <? 0) eqn:Hneg; [done|].
  apply Z.ltb_ge in Hneg.
  pose proof (bytes_Index_bound _ _ Hneg) as Hbound.
  rewrite length_drop in Hbound.
  change (length linePrefix) with 7%nat in *.
  destruct (atLineStart _ _ _).
  - destruct (blankOut _ _ _ _) as [buf' i'] eqn:Hblank.
    assert (length buf' = length buf) as Hlen.
    { by rewrite <- (blankOut_length (length buf) buf off
        (Z.to_nat (bytes_Index (drop off buf) linePrefix))), Hblank. }
    assert (1 ≤ i')%nat as Hstep.
    { destruct (Z.to_nat (bytes_Index (drop off buf) linePrefix))
        as [|i] eqn:Hi.
      - assert (bytes_Index (drop off buf) linePrefix = 0) as Hzero by lia.
        apply bytes_Index_zero, blankOut_marker in Hzero.
        by rewrite Hblank in Hzero.
      - pose proof (blankOut_ge (length buf) buf off (S i)) as Hge.
        rewrite Hblank in Hge. simpl in Hge. lia. }
    apply IH; lia.
  - apply IH; lia.
Qed.

Lemma replaceLinePrefixCommentsWithBlankLine_fuel fuel src :
  (length src < fuel)%nat →
  scrub fuel src 0 = replaceLinePrefixCommentsWithBlankLine src.
Proof.
  intros Hfuel. unfold replaceLinePrefixCommentsWithBlankLine.
  apply scrub_fuel; lia.
Qed.

Lemma replaceLinePrefixCommentsWithBlankLine_length src :
  length (replaceLinePrefixCommentsWithBlankLine src) = length src.
Proof. apply scrub_length. Qed.

End SanitizerFacts.

(** ** The sanitizer, slice by slice *)

Module SanitizerLines.
Import Sanitizer SanitizerFacts.

Lemma lineLen_le (s : bytes) : (lineLen s ≤ length s)%nat.
Proof.
  induction s as [|b s IH]; simpl; [done|].
  destruct (Byte.eqb b newline); lia.
Qed.

Lemma lineLen_no_newline (l rest : bytes) :
  newline ∉ l → lineLen (l ++ newline :: rest) = length l.
Proof.
  induction l as [|b l IH]; intros Hnl; simpl.
  - reflexivity.
  - apply not_elem_of_cons in Hnl as [Hb Hl].
    destruct (Byte.eqb b newline) eqn:Heq.
    + by apply Byte.byte_dec_bl in Heq.
    + by rewrite IH.
Qed.

Lemma lineLen_all (l : bytes) : newline ∉ l → lineLen l = length l.
Proof.
  induction l as [|b l IH]; intros Hnl; simpl; [done|].
  apply not_elem_of_cons in Hnl as [Hb Hl].
  destruct (Byte.eqb b newline) eqn:Heq.
  - by apply Byte.byte_dec_bl in Heq.
  - by rewrite IH.
Qed.

(** A slice that starts with the marker has no newline in its first
    seven bytes. *)
Lemma lineLen_prefix (s prefix : bytes) :
  newline ∉ prefix → bytes_HasPrefix s prefix = true →
  (length prefix ≤ lineLen s)%nat.
Proof.
  revert s. induction prefix as [|p prefix IH]; intros s Hnl; simpl; [lia|].
  destruct s as [|b s]; [done|].
  apply not_elem_of_cons in Hnl as [Hp Hprefix].
  intros [Hpb Hrest]%andb_true_iff.
  apply Byte.byte_dec_bl in Hpb as <-. simpl.
  destruct (Byte.eqb p newline) eqn:Heq.
  - by apply Byte.byte_dec_bl in Heq.
  - specialize (IH s Hprefix Hrest). lia.
Qed.

Lemma linePrefix_no_newline : newline ∉ linePrefix.
Proof.
  intros Hin.
  repeat (apply elem_of_cons in Hin as [Hin|Hin]; [discriminate Hin|]).
  by apply elem_of_nil in Hin.
Qed.

Lemma lineLen_marker (s : bytes) :
  bytes_HasPrefix s linePrefix = true → (7 ≤ lineLen s)%nat.
Proof. apply (lineLen_prefix s linePrefix linePrefix_no_newline). Qed.

(** The inner loop blanks the rest of the line. *)
Lemma blankOut_spec fuel buf off i :
  (lineLen (drop (off + i) buf) ≤ fuel)%nat →
  blankOut fuel buf off i
  = (take (off + i) buf
       ++ replicate (lineLen (drop (off + i) buf)) space
       ++ drop (off + i + lineLen (drop (off + i) buf)) buf,
     (i + lineLen (drop (off + i) buf))%nat).
Proof.
  revert buf i. induction fuel as [|fuel IH]; intros buf i Hfuel.
  - assert (lineLen (drop (off + i) buf) = 0%nat) as -> by lia.
    simpl. by rewrite !Nat.add_0_r, take_drop.
  - cbn [blankOut]. destruct (buf !! (off + i)%nat) as [b|] eqn:Hb.
    + pose proof (drop_S _ _ _ Hb) as Hdrop0.
      assert (off + i < length buf)%nat as Hlt
        by (by apply lookup_lt_Some in Hb).
      rewrite Hdrop0 in Hfuel |- *. cbn [lineLen] in *.
      destruct (Byte.eqb b newline) eqn:Heq.
      * rewrite !Nat.add_0_r. simpl. by rewrite take_drop.
      * assert (drop (off + S i) (<[(off + i)%nat := space]> buf)
                = drop (S (off + i)) buf) as Hdrop.
        { rewrite Nat.add_succ_r. apply drop_insert_lt. lia. }
        rewrite IH; rewrite Hdrop; [|lia].
        f_equal; [|lia].
        rewrite Nat.add_succ_r.
        rewrite (take_S_r _ _ space)
          by (by apply list_lookup_insert_eq).
        rewrite take_insert_ge by lia.
        rewrite <- app_assoc. simpl. do 2 f_equal.
        rewrite drop_insert_lt by lia.
        by rewrite Nat.add_succ_r.
    + apply lookup_ge_None in Hb.
      rewrite (drop_ge buf (off + i)) by lia. simpl.
      rewrite !Nat.add_0_r, take_ge, drop_ge by lia.
      by rewrite app_nil_r.
Qed.

Lemma atLineStart_local buf off i :
  atLineStart (drop off buf) 0 i = atLineStart buf off i.
Proof.
  unfold atLineStart. destruct i as [|i]; [done|]. simpl.
  rewrite Nat.sub_0_r, lookup_drop.
  by replace (off + S i - 1)%nat with (off + i)%nat by lia.
Qed.

(** The outer loop works on the slice only: the bytes before the slice
    are left alone and the bytes of the slice are treated as a buffer of
    their own. *)
Lemma scrub_local fuel buf off :
  scrub fuel buf off = take off buf ++ scrub fuel (drop off buf) 0.
Proof.
  revert buf off. induction fuel as [|fuel IH]; intros buf off.
  - simpl. by rewrite take_drop.
  - cbn [scrub]. rewrite drop_0, atLineStart_local.
    destruct (bytes_Index (drop off buf) linePrefix <? 0) eqn:Hneg;
      [by rewrite take_drop|].
    apply Z.ltb_ge in Hneg.
    pose proof (bytes_Index_bound _ _ Hneg) as Hbound.
    rewrite length_drop in Hbound.
    change (length linePrefix) with 7%nat in *.
    set (i := Z.to_nat (bytes_Index (drop off buf) linePrefix)) in *.
    destruct (atLineStart buf off i).
    + pose proof (lineLen_le (drop (off + i) buf)) as Hk.
      rewrite length_drop in Hk.
      rewrite !blankOut_spec;
        rewrite ?drop_drop, ?length_drop, ?Nat.add_0_l; try lia.
      set (k := lineLen (drop (off + i) buf)) in *.
      rewrite (IH _ (off + (i + k))%nat), (IH _ (0 + (i + k))%nat).
      rewrite Nat.add_0_l.
      rewrite !app_assoc.
      rewrite (take_app_length' (take (off + i) buf ++ replicate k space))
        by (rewrite length_app, length_take, length_replicate; lia).
      rewrite (drop_app_length' (take (off + i) buf ++ replicate k space))
        by (rewrite length_app, length_take, length_replicate; lia).
      rewrite (take_app_length' (take i (drop off buf) ++ replicate k space))
        by (rewrite length_app, length_take, length_replicate, length_drop;
            lia).
      rewrite (drop_app_length' (take i (drop off buf) ++ replicate k space))
        by (rewrite length_app, length_take, length_replicate, length_drop;
            lia).
      rewrite <- (take_take_drop buf off i).
      rewrite <- !app_assoc. do 3 f_equal.
      f_equal. f_equal. lia.
    + rewrite (IH buf (off + (i + 7))%nat), (IH (drop off buf) (0 + (i + 7))%nat).
      rewrite Nat.add_0_l, drop_drop.
      rewrite <- (take_take_drop buf off (i + 7)).
      by rewrite <- app_assoc.
Qed.

(** The loop as a recursion on slices. *)
Lemma replaceLinePrefixCommentsWithBlankLine_eq (src : bytes) :
  replaceLinePrefixCommentsWithBlankLine src
  = let i := bytes_Index src linePrefix in
    if i <? 0 then src
    else
      let i := Z.to_nat i in
      if atLineStart src 0 i then
        take i src
          ++ replicate (lineLen (drop i src)) space
          ++ replaceLinePrefixCommentsWithBlankLine
               (drop (i + lineLen (drop i src)) src)
      else
        take (i + 7) src
          ++ replaceLinePrefixCommentsWithBlankLine (drop (i + 7) src).
Proof.
  unfold replaceLinePrefixCommentsWithBlankLine at 1. cbn [scrub].
  rewrite drop_0. cbv zeta.
  destruct (bytes_Index src linePrefix <? 0) eqn:Hneg; [done|].
  apply Z.ltb_ge in Hneg.
  pose proof (bytes_Index_bound _ _ Hneg) as Hbound.
  change (length linePrefix) with 7%nat in *.
  set (i := Z.to_nat (bytes_Index src linePrefix)) in *.
  destruct (atLineStart src 0 i) eqn:Hstart.
  - pose proof (lineLen_le (drop i src)) as Hk.
    rewrite length_drop in Hk.
    rewrite blankOut_spec; rewrite ?Nat.add_0_l; [|lia].
    set (k := lineLen (drop i src)) in *.
    assert (1 ≤ i + k)%nat as Hstep.
    { destruct i as [|i'] eqn:Hi; [|lia].
      assert (bytes_Index src linePrefix = 0) as Hzero by lia.
      apply bytes_Index_zero, lineLen_marker in Hzero.
      subst k. rewrite drop_0. lia. }
    rewrite scrub_local.
    rewrite !app_assoc.
    rewrite (take_app_length' (take i src ++ replicate k space))
      by (rewrite length_app, length_take, length_replicate; lia).
    rewrite (drop_app_length' (take i src ++ replicate k space))
      by (rewrite length_app, length_take, length_replicate; lia).
    f_equal.
    unfold replaceLinePrefixCommentsWithBlankLine.
    apply scrub_fuel; rewrite length_drop; lia.
  - rewrite scrub_local. f_equal.
    unfold replaceLinePrefixCommentsWithBlankLine.
    apply scrub_fuel; rewrite length_drop; lia.
Qed.

(** *** What a pass may change *)

Lemma blanked_refl (buf : bytes) : blanked buf buf.
Proof. split; [done|]. intros p b Hb. by left. Qed.

Lemma blanked_trans (a b c : bytes) : blanked a b → blanked b c → blanked a c.
Proof.
  intros [Hlen1 H1] [Hlen2 H2]. split; [congruence|].
  intros p x Hx. destruct (H1 p x Hx) as [Hkeep|[Hnl Hsp]].
  - apply (H2 p x Hkeep).
  - right. split; [done|].
    destruct (H2 p space Hsp) as [?|[_ ?]]; done.
Qed.

Lemma blanked_insert (buf : bytes) (n : nat) (b : Byte.byte) :
  buf !! n = Some b → b ≠ newline → blanked buf (<[n := space]> buf).
Proof.
  intros Hb Hnl. split; [apply length_insert|].
  intros p x Hx. destruct (decide (p = n)) as [->|Hne].
  - right. rewrite Hb in Hx. injection Hx as <-. split; [done|].
    apply list_lookup_insert_eq. by apply lookup_lt_Some in Hb.
  - left. by rewrite list_lookup_insert_ne.
Qed.

Lemma blankOut_blanked fuel buf off i : blanked buf (blankOut fuel buf off i).1.
Proof.
  revert buf i. induction fuel as [|fuel IH]; intros buf i; simpl.
  - apply blanked_refl.
  - destruct (buf !! (off + i)%nat) as [b|] eqn:Hb; [|apply blanked_refl].
    destruct (Byte.eqb b newline) eqn:Heq; [apply blanked_refl|].
    eapply blanked_trans; [|apply IH].
    apply (blanked_insert _ _ b Hb). intros ->. discriminate Heq.
Qed.

Lemma scrub_blanked fuel buf off : blanked buf (scrub fuel buf off).
Proof.
  revert buf off. induction fuel as [|fuel IH]; intros buf off; simpl.
  - apply blanked_refl.
  - destruct (bytes_Index (drop off buf) linePrefix <? 0);
      [apply blanked_refl|].
    destruct (atLineStart _ _ _); [|apply IH].
    destruct (blankOut _ _ _ _) as [buf' i'] eqn:Hblank.
    eapply blanked_trans; [|apply IH].
    pose proof (blankOut_blanked (length buf) buf off
                  (Z.to_nat (bytes_Index (drop off buf) linePrefix))) as Hb.
    by rewrite Hblank in Hb.
Qed.

(** *** The marker and the newlines *)

Lemma bytes_HasPrefix_app_newline (l tail prefix : bytes) :
  newline ∉ prefix →
  bytes_HasPrefix (l ++ newline :: tail) prefix = bytes_HasPrefix l prefix.
Proof.
  revert l. induction prefix as [|x prefix IH]; intros l Hnl; [by destruct l|].
  apply not_elem_of_cons in Hnl as [Hx Hprefix].
  destruct l as [|b l]; simpl.
  - destruct (Byte.eqb x newline) eqn:Heq; [|done].
    by apply Byte.byte_dec_bl in Heq.
  - by rewrite IH.
Qed.

Lemma bytes_Index_neg (b : Byte.byte) (l sep : bytes) :
  bytes_Index (b :: l) sep < 0 →
  bytes_HasPrefix (b :: l) sep = false ∧ bytes_Index l sep < 0.
Proof.
  rewrite bytes_Index_eq.
  destruct (bytes_HasPrefix (b :: l) sep); [lia|].
  destruct (bytes_Index l sep <? 0) eqn:Hneg; [|apply Z.ltb_ge in Hneg; lia].
  apply Z.ltb_lt in Hneg. by split.
Qed.

(** A marker does not reach across a newline: the first marker of a
    buffer whose first line has none is the first marker after that
    line. *)
Lemma bytes_Index_app_newline (l tail sep : bytes) :
  newline ∉ sep → bytes_Index l sep < 0 →
  bytes_Index (l ++ newline :: tail) sep
  = if bytes_Index tail sep <? 0 then -1
    else Z.of_nat (length l) + 1 + bytes_Index tail sep.
Proof.
  intros Hnl. induction l as [|b l IH]; intros Hneg.
  - rewrite bytes_Index_eq in Hneg.
    destruct (bytes_HasPrefix [] sep) eqn:Hp; [lia|].
    rewrite bytes_Index_eq.
    rewrite (bytes_HasPrefix_app_newline [] tail sep Hnl), Hp.
    cbn [app length].
    destruct (bytes_Index tail sep <? 0); [done|]. simpl Z.of_nat. lia.
  - apply bytes_Index_neg in Hneg as [Hp Hl].
    rewrite bytes_Index_eq.
    rewrite (bytes_HasPrefix_app_newline (b :: l) tail sep Hnl), Hp.
    cbn [app]. rewrite (IH Hl).
    destruct (bytes_Index tail sep <? 0) eqn:Htail; [done|].
    apply Z.ltb_ge in Htail.
    destruct (_ <? 0) eqn:Hsum; [apply Z.ltb_lt in Hsum; lia|].
    simpl length. lia.
Qed.

(** A line without marker is passed over. *)
Lemma replace_plain_line (l tail : bytes) :
  newline ∉ l → bytes_Index l linePrefix < 0 →
  replaceLinePrefixCommentsWithBlankLine (l ++ newline :: tail)
  = l ++ newline :: replaceLinePrefixCommentsWithBlankLine tail.
Proof.
  intros Hnl Hneg.
  rewrite (replaceLinePrefixCommentsWithBlankLine_eq (l ++ _)),
          (replaceLinePrefixCommentsWithBlankLine_eq tail).
  cbv zeta.
  rewrite (bytes_Index_app_newline l tail linePrefix linePrefix_no_newline Hneg).
  destruct (bytes_Index tail linePrefix <? 0) eqn:Htail; [done|].
  apply Z.ltb_ge in Htail.
  destruct (_ <? 0) eqn:Hsum; [apply Z.ltb_lt in Hsum; lia|].
  set (j := Z.to_nat (bytes_Index tail linePrefix)).
  replace (Z.to_nat (Z.of_nat (length l) + 1 + bytes_Index tail linePrefix))
    with (length (l ++ [newline]) + j)%nat
    by (rewrite length_app; simpl; lia).
  replace (l ++ newline :: tail) with ((l ++ [newline]) ++ tail)
    by (by rewrite <- app_assoc).
  assert (atLineStart ((l ++ [newline]) ++ tail) 0 (length (l ++ [newline]) + j)
          = atLineStart tail 0 j) as ->.
  { transitivity (atLineStart ((l ++ [newline]) ++ tail)
                                (length (l ++ [newline])) j);
      [|by rewrite <- atLineStart_local, drop_app_length].
    unfold atLineStart. rewrite Nat.add_0_l. destruct j as [|j'].
    - rewrite Nat.add_0_r.
      replace (length (l ++ [newline]) =? 0)%nat with false
        by (rewrite length_app; simpl; symmetry; apply Nat.eqb_neq; lia).
      rewrite lookup_app_l by (rewrite length_app; simpl; lia).
      rewrite length_app. simpl.
      replace (length l + 1 - 1)%nat with (length l) by lia.
      by rewrite list_lookup_middle.
    - by replace (length (l ++ [newline]) + S j' =? 0)%nat with false
        by (symmetry; apply Nat.eqb_neq; lia). }
  rewrite (drop_app_add' (l ++ [newline]) tail _ j) by done.
  destruct (atLineStart tail 0 j).
  - rewrite (take_app_add' (l ++ [newline]) tail _ j) by done.
    rewrite <- Nat.add_assoc.
    rewrite (drop_app_add' (l ++ [newline]) tail _ (j + _)) by done.
    by rewrite <- !app_assoc.
  - rewrite <- Nat.add_assoc.
    rewrite (take_app_add' (l ++ [newline]) tail _ (j + 7)) by done.
    rewrite (drop_app_add' (l ++ [newline]) tail _ (j + 7)) by done.
    by rewrite <- !app_assoc.
Qed.

(** A line that starts with the marker is blanked. *)
Lemma replace_marker_line (l tail : bytes) :
  newline ∉ l → bytes_HasPrefix l linePrefix = true →
  replaceLinePrefixCommentsWithBlankLine (l ++ newline :: tail)
  = replicate (length l) space
      ++ newline :: replaceLinePrefixCommentsWithBlankLine tail.
Proof.
  intros Hnl Hp.
  rewrite replaceLinePrefixCommentsWithBlankLine_eq. cbv zeta.
  assert (bytes_Index (l ++ newline :: tail) linePrefix = 0) as ->.
  { rewrite bytes_Index_eq.
    by rewrite (bytes_HasPrefix_app_newline l tail _ linePrefix_no_newline), Hp. }
  simpl Z.ltb. cbn [Z.to_nat]. simpl atLineStart. cbv iota.
  rewrite drop_0, Nat.add_0_l, take_0, (lineLen_no_newline l tail Hnl).
  rewrite drop_app_length. simpl app. f_equal.
  apply (replace_plain_line [] tail); [by apply not_elem_of_nil|done].
Qed.

Lemma replace_last_line (l : bytes) :
  markerAtStartOnly l →
  replaceLinePrefixCommentsWithBlankLine l = blankLine l.
Proof.
  intros [Hnl [Hp|Hneg]]; rewrite replaceLinePrefixCommentsWithBlankLine_eq;
    cbv zeta; unfold blankLine.
  - assert (bytes_Index l linePrefix = 0) as ->
      by (by rewrite bytes_Index_eq, Hp).
    simpl Z.ltb. cbn [Z.to_nat]. simpl atLineStart. cbv iota.
    rewrite Hp, drop_0, Nat.add_0_l, take_0, (lineLen_all l Hnl), drop_all.
    simpl app. apply app_nil_r.
  - apply Z.ltb_lt in Hneg as Hneg'. rewrite Hneg'.
    destruct (bytes_HasPrefix l linePrefix) eqn:Hp; [|done].
    rewrite bytes_Index_eq, Hp in Hneg. lia.
Qed.

End SanitizerLines.

(** ** Further properties of the sanitizer *)

(** X1. The sanitizer keeps the length of the buffer and changes a byte
    only by writing a space over a byte that is not a newline; the
    newlines of the result are the newlines of the input, at the same
    positions. *)
Theorem sanitizer_only_blanks (src : bytes) :
  blanked src (Sanitizer.replaceLinePrefixCommentsWithBlankLine src)
  ∧ ∀ p, Sanitizer.replaceLinePrefixCommentsWithBlankLine src !! p
           = Some newline
         ↔ src !! p = Some newline.
Proof.
  pose proof (SanitizerLines.scrub_blanked (S (length src)) src 0)
    as [Hlen Hbytes].
  fold (Sanitizer.replaceLinePrefixCommentsWithBlankLine src) in Hlen, Hbytes.
  split; [by split|].
  intros p. split.
  - intros Hdst.
    destruct (src !! p) as [b|] eqn:Hsrc.
    + destruct (Hbytes p b Hsrc) as [Hkeep|[_ Hsp]]; [congruence|].
      rewrite Hsp in Hdst. discriminate Hdst.
    + apply lookup_ge_None in Hsrc. apply lookup_lt_Some in Hdst. lia.
  - intros Hsrc. by destruct (Hbytes p newline Hsrc) as [?|[? _]].
Qed.

(** Every pass moves the slice forward, so the loop reaches its
    [break] before the passes run out. *)
Lemma scrubBreak_reaches_break (fuel : nat) (buf : bytes) (off : nat) :
  (length buf - off < fuel)%nat →
  scrubBreak fuel buf off = Some (Sanitizer.scrub fuel buf off).
Proof.
  revert buf off.
  induction fuel as [|fuel IH]; intros buf off Hlt; [lia|].
  simpl.
  destruct (bytes_Index (drop off buf) Sanitizer.linePrefix <? 0) eqn:Hneg;
    [done|].
  apply Z.ltb_ge in Hneg.
  pose proof (SanitizerFacts.bytes_Index_bound _ _ Hneg) as Hbound.
  rewrite length_drop in Hbound.
  change (length Sanitizer.linePrefix) with 7%nat in *.
  destruct (Sanitizer.atLineStart _ _ _).
  - destruct (Sanitizer.blankOut _ _ _ _) as [buf' i'] eqn:Hblank.
    assert (length buf' = length buf) as Hlen.
    { by rewrite <- (SanitizerFacts.blankOut_length (length buf) buf off
        (Z.to_nat (bytes_Index (drop off buf) Sanitizer.linePrefix))), Hblank. }
    assert (1 ≤ i')%nat as Hstep.
    { destruct (Z.to_nat (bytes_Index (drop off buf) Sanitizer.linePrefix))
        as [|i] eqn:Hi.
      - assert (bytes_Index (drop off buf) Sanitizer.linePrefix = 0)
          as Hzero by lia.
        apply SanitizerFacts.bytes_Index_zero,
              SanitizerFacts.blankOut_marker in Hzero.
        by rewrite Hblank in Hzero.
      - pose proof (SanitizerFacts.blankOut_ge (length buf) buf off (S i))
          as Hge.
        rewrite Hblank in Hge. simpl in Hge. lia. }
    apply IH. lia.
  - apply IH. lia.
Qed.

(** X2. The loop terminates: it reaches its [break] within
    [len(src) + 1] passes, and the buffer it has then is the result of
    the sanitizer. *)
Theorem sanitizer_terminates (src : bytes) (fuel : nat)
    (Hfuel : (length src < fuel)%nat) :
  scrubBreak fuel src 0
  = Some (Sanitizer.replaceLinePrefixCommentsWithBlankLine src).
Proof.
  rewrite scrubBreak_reaches_break by lia. f_equal.
  by apply SanitizerFacts.replaceLinePrefixCommentsWithBlankLine_fuel.
Qed.

(** X3. A buffer in which the marker does not occur is returned as it
    is; otherwise the bytes before the first occurrence of the marker
    are not changed. *)
Theorem sanitizer_keeps_bytes_before_marker (src : bytes) :
  (bytes_Index src Sanitizer.linePrefix < 0 →
   Sanitizer.replaceLinePrefixCommentsWithBlankLine src = src)
  ∧ (0 ≤ bytes_Index src Sanitizer.linePrefix →
     take (Z.to_nat (bytes_Index src Sanitizer.linePrefix))
          (Sanitizer.replaceLinePrefixCommentsWithBlankLine src)
     = take (Z.to_nat (bytes_Index src Sanitizer.linePrefix)) src).
Proof.
  rewrite SanitizerLines.replaceLinePrefixCommentsWithBlankLine_eq. cbv zeta.
  split.
  - intros Hneg. apply Z.ltb_lt in Hneg. by rewrite Hneg.
  - intros Hpos.
    pose proof (SanitizerFacts.bytes_Index_bound _ _ Hpos) as Hbound.
    apply Z.ltb_ge in Hpos. rewrite Hpos.
    set (i := Z.to_nat (bytes_Index src Sanitizer.linePrefix)) in *.
    destruct (Sanitizer.atLineStart src 0 i).
    + rewrite take_app_length'; [done|]. rewrite length_take. lia.
    + rewrite take_app_le by (rewrite length_take; lia).
      rewrite take_take. f_equal. lia.
Qed.

(** X4. On a buffer in whose lines the marker occurs at the start of the
    line or not at all, the sanitizer blanks the lines that start with
    the marker, newlines excepted, and leaves the other lines as they
    are. *)
Theorem sanitizer_blanks_marker_lines (lines : list bytes)
    (Hlines : Forall markerAtStartOnly lines) :
  Sanitizer.replaceLinePrefixCommentsWithBlankLine (unlines lines)
  = unlines (blankLine <$> lines).
Proof.
  induction Hlines as [|l ls Hl Hls IH]; [reflexivity|].
  destruct ls as [|l2 ls].
  - simpl. by apply SanitizerLines.replace_last_line.
  - change (unlines (l :: l2 :: ls))
      with (l ++ newline :: unlines (l2 :: ls)).
    change (unlines (blankLine <$> l :: l2 :: ls))
      with (blankLine l ++ newline :: unlines (blankLine <$> l2 :: ls)).
    rewrite <- IH. unfold blankLine at 1.
    destruct Hl as [Hnl [Hp|Hneg]].
    + rewrite Hp. by apply SanitizerLines.replace_marker_line.
    + destruct (bytes_HasPrefix l Sanitizer.linePrefix) eqn:Hp.
      { rewrite SanitizerFacts.bytes_Index_eq, Hp in Hneg. lia. }
      by apply SanitizerLines.replace_plain_line.
Qed.

Lemma sanitizer_terminates_witness :
  scrubBreak 17 Adjacent.src 0
  = Some (Sanitizer.replaceLinePrefixCommentsWithBlankLine Adjacent.src).
Proof.
  apply (sanitizer_terminates Adjacent.src 17). vm_compute. lia.
Defined.

Lemma sanitizer_blanks_marker_lines_witness :
  Sanitizer.replaceLinePrefixCommentsWithBlankLine (unlines Generated.lines)
  = unlines (blankLine <$> Generated.lines).
Proof.
  apply (sanitizer_blanks_marker_lines Generated.lines).
  repeat apply List.Forall_cons; try apply List.Forall_nil.
  all: split;
    [ intros Hin;
      repeat (apply elem_of_cons in Hin as [Hin|Hin]; [discriminate Hin|]);
      by apply elem_of_nil in Hin
    | first [ left; vm_compute; reflexivity
            | right; vm_compute; reflexivity ] ].
Defined.

(** ** Further properties of the extractor *)

Lemma occurrences_NoDup (t : string) (l : list string) :
  NoDup l → occurrences t l = if decide (t ∈ l) then 1%nat else 0%nat.
Proof.
  induction 1 as [|x l Hx Hl IH]; [done|].
  rewrite occurrences_cons, IH.
  destruct (decide (x = t)) as [->|Hne].
  - rewrite (decide_False (P := t ∈ l)) by done.
    by rewrite decide_True by by left.
  - destruct (decide (t ∈ l)) as [Hin|Hnotin].
    + by rewrite decide_True by by right.
    + rewrite decide_False; [done|].
      intros [->|?]%elem_of_cons; done.
Qed.

(** X5. When the list of allowed tags has no repetition, the extractor
    returns the tokens of the directive lines that are allowed tags, in
    their order of appearance and as often as they appear. *)
Theorem findBuildTags_filters_tokens `{GoLib} (file : ast.File)
    (allowedBuildTags : list string)
    (Hnodup : NoDup allowedBuildTags) :
  (findBuildTags file allowedBuildTags).1
  = filter (λ t, t ∈ allowedBuildTags) (directiveTokens file).
Proof.
  rewrite findBuildTags_kept. unfold kept.
  induction (directiveTokens file) as [|t tokens IH]; [done|].
  simpl. rewrite IH, filter_cons, (occurrences_NoDup t _ Hnodup).
  by destruct (decide (t ∈ allowedBuildTags)).
Qed.

Lemma findBuildTags_filters_tokens_witness :
  (@findBuildTags TestCorpus.golib TestCorpus.xtag2_go
     ["xtag3"; "linux"; "xtag2"]).1
  = filter (λ t, t ∈ ["xtag3"; "linux"; "xtag2"])
           (@directiveTokens TestCorpus.golib TestCorpus.xtag2_go).
Proof.
  apply (@findBuildTags_filters_tokens TestCorpus.golib).
  repeat (apply NoDup_cons; split;
          [intros Hin;
           repeat (apply elem_of_cons in Hin as [Hin|Hin];
                   [discriminate Hin|]);
           by apply elem_of_nil in Hin|]).
  apply NoDup_nil. done.
Defined.

(** ** Further properties of the loader *)

Section LoaderMore.
Context `{GoLib}.
Variables (c : Corpus) (relpath abspath : string).

(** Loading a list of names is loading a first part of it and then the
    rest, on top of the trees of the first part. *)
Lemma parseFiles_from_app names1 names2 files0 :
  parseFiles_from c relpath abspath (names1 ++ names2) files0
  = iobind (parseFiles_from c relpath abspath names1 files0)
           (λ files1, parseFiles_from c relpath abspath names2 files1).
Proof.
  revert files0. induction names1 as [|f names1 IH]; intros files0.
  - simpl. by destruct (parseFiles_from _ _ _ names2 files0).
  - change ((f :: names1) ++ names2) with (f :: (names1 ++ names2)).
    rewrite !parseFiles_from_cons.
    destruct (parseFile c (path_Join abspath f)) as [tr [file|e|]]; simpl;
      [|done..].
    rewrite IH.
    destruct (parseFiles_from c relpath abspath names1 _) as [tr1 [m1|e|]];
      simpl; [|done..].
    destruct (parseFiles_from c relpath abspath names2 m1) as [tr2 r2].
    by rewrite app_assoc.
Qed.

(** A key that no name is joined to keeps its tree. *)
Lemma parseFiles_from_other names files0 astMap key :
  outcome (parseFiles_from c relpath abspath names files0) = Ok astMap →
  key ∉ path_Join relpath <$> names →
  astMap !! key = files0 !! key.
Proof.
  revert files0. induction names as [|f names IH]; intros files0.
  - simpl. by intros [= <-].
  - rewrite parseFiles_from_cons, outcome_iobind, fmap_cons.
    destruct (outcome (parseFile c (path_Join abspath f))) as [file| |];
      cbn [rbind]; [|done..].
    intros Hok [Hne Hnotin]%not_elem_of_cons.
    rewrite (IH _ Hok Hnotin). by rewrite lookup_insert_ne.
Qed.

(** X6. When two names of a batch are joined to the same key, the tree
    of the later name is the one the batch holds: the tree of a key is
    the tree loaded for the last name joined to it. *)
Theorem parseFiles_last_name_wins (pre post : list string) (f : string)
    (astMap : gmap string ast.File)
    (Hok : outcome (parseFiles c relpath abspath (pre ++ f :: post))
           = Ok astMap)
    (Hlast : path_Join relpath f ∉ path_Join relpath <$> post) :
  ∃ tree, loadOne c (path_Join abspath f) = Ok tree
          ∧ astMap !! path_Join relpath f = Some tree.
Proof.
  unfold parseFiles in Hok.
  rewrite parseFiles_from_app, outcome_iobind in Hok.
  destruct (outcome (parseFiles_from c relpath abspath pre ∅)) as [mid| |];
    cbn [rbind] in Hok; [|done..].
  rewrite parseFiles_from_cons, outcome_iobind in Hok.
  fold (loadOne c (path_Join abspath f)) in Hok.
  destruct (loadOne c (path_Join abspath f)) as [tree| |];
    cbn [rbind] in Hok; [|done..].
  exists tree. split; [done|].
  rewrite (parseFiles_from_other _ _ _ _ Hok Hlast).
  apply lookup_insert_eq.
Qed.

End LoaderMore.

Lemma parseFiles_last_name_wins_witness :
  ∃ tree,
    @loadOne SameBase.golib SameBase.c (Concrete.join "/src" "x.go") = Ok tree
    ∧ SameBase.astMap !! Concrete.join "" "x.go" = Some tree.
Proof.
  apply (@parseFiles_last_name_wins SameBase.golib SameBase.c "" "/src"
           ["x.go"] [] "x.go" SameBase.astMap).
  - vm_compute. reflexivity.
  - apply not_elem_of_nil.
Defined.

(** ** Further properties of the mapper *)

Lemma replay_is_Some key events (m : gmap string string) :
  is_Some (replay events m !! key)
  ↔ is_Some (m !! key) ∨ ∃ t, (key, t) ∈ events.
Proof.
  revert m. induction events as [|[k t] events IH]; intros m.
  - unfold replay. simpl. split; [by left|].
    intros [?|[t Ht]]; [done|]. by apply elem_of_nil in Ht.
  - change (replay ((k, t) :: events) m)
      with (replay events (addTag k t m)).
    rewrite IH. unfold addTag. simpl.
    destruct (decide (k = key)) as [->|Hne].
    + rewrite lookup_insert_eq. split.
      * intros _. right. exists t. by left.
      * intros _. left. by eauto.
    + rewrite lookup_insert_ne by done. split.
      * intros [?|[t' Ht']]; [by left|]. right. exists t'. by right.
      * intros [?|[t' Ht']]; [by left|].
        apply elem_of_cons in Ht' as [[= -> ->]|Ht']; [done|].
        right. by exists t'.
Qed.

Lemma addTag_comm (k1 k2 t : string) (m : gmap string string) :
  addTag k1 t (addTag k2 t m) = addTag k2 t (addTag k1 t m).
Proof.
  destruct (decide (k1 = k2)) as [->|Hne]; [done|].
  unfold addTag.
  rewrite !lookup_insert_ne by done.
  by rewrite insert_insert_ne.
Qed.

Lemma replayKeys_Permutation (t : string) (keys1 keys2 : list string)
    (m : gmap string string) :
  keys1 ≡ₚ keys2 →
  foldl (λ m key, addTag key t m) m keys1
  = foldl (λ m key, addTag key t m) m keys2.
Proof.
  intros Hperm. revert m.
  induction Hperm as [|k l1 l2 _ IH|k1 k2 l|l1 l2 l3 _ IH1 _ IH2];
    intros m; simpl.
  - done.
  - apply IH.
  - by rewrite addTag_comm.
  - by rewrite IH1.
Qed.

Section MapperMore.
Context `{GoLib}.

(** The walk of a batch does not depend on the order of its files. *)
Lemma walkBatch_Permutation tagName m (astMap1 astMap2 : list (string * ast.File)) :
  astMap1 ≡ₚ astMap2 →
  walkBatch tagName m astMap1 = walkBatch tagName m astMap2.
Proof.
  intros Hperm. revert m. unfold walkBatch.
  induction Hperm as [|x l1 l2 _ IH|x y l|l1 l2 l3 _ IH1 _ IH2];
    intros m.
  - done.
  - simpl. destruct (walkFile tagName m x.2); simpl; [|done..]. apply IH.
  - simpl. rewrite !walkFile_keys.
    pose proof (collect_declKeys_not_Err (ast.Decls x.2)) as Hx.
    pose proof (collect_declKeys_not_Err (ast.Decls y.2)) as Hy.
    fold (fileKeys x.2) in Hx. fold (fileKeys y.2) in Hy.
    destruct (fileKeys y.2) as [ky|e|] eqn:Hky; [|by destruct (Hy e)|];
      (destruct (fileKeys x.2) as [kx|e|] eqn:Hkx; [|by destruct (Hx e)|]);
      simpl; rewrite ?walkFile_keys, ?Hky, ?Hkx; simpl; try done.
    rewrite <- !foldl_app.
    by rewrite (replayKeys_Permutation tagName (ky ++ kx) (kx ++ ky))
      by apply Permutation_app_comm.
  - by rewrite IH1.
Qed.

End MapperMore.

Lemma iobind_ext {A B} (m : IO A) (k1 k2 : A -> IO B) :
  (∀ a, k1 a = k2 a) → iobind m k1 = iobind m k2.
Proof. intros Hk. destruct m as [tr [a|e|]]; simpl; [|done..]. by rewrite Hk. Qed.

Lemma occurrences_single (T : string) (ts : list string) :
  (∀ t, occurrences t ts = if decide (t = T) then 1%nat else 0%nat) →
  ts = [T].
Proof.
  intros Hocc. destruct ts as [|x ts].
  - specialize (Hocc T). rewrite decide_True in Hocc by done. done.
  - assert (x = T) as ->.
    { specialize (Hocc x). rewrite occurrences_cons, decide_True in Hocc by done.
      destruct (decide (x = T)); [done|lia]. }
    destruct ts as [|y ts]; [done|].
    specialize (Hocc y). rewrite !occurrences_cons in Hocc.
    rewrite (decide_True (P := y = y)) in Hocc by done.
    destruct (decide (T = y)) as [<-|Hne].
    + rewrite decide_True in Hocc by done. lia.
    + rewrite decide_False in Hocc by done. lia.
Qed.

Section MapperExtras.
Context `{GoLib}.
Variables (s : Schedule) (c : Corpus) (files : gmap string ast.File).
Variables (relpath abspath : string) (ctxt : build.Context).
Hypothesis Hadm : admissible s.

Lemma events_tagsFor tags ess key :
  Forall2 (λ entry es, tagEvents s c relpath abspath entry = Some es)
          tags ess →
  tagsFor key (concat ess)
  = flat_map (λ entry,
                replicate (entryCount c relpath abspath key entry.1 entry)
                          entry.1) tags.
Proof.
  destruct Hadm as (_ & _ & Hbatch).
  induction 1 as [|[tagName fileNames] es tags ess Hes _ IH]; [done|].
  simpl concat. rewrite tagsFor_app, IH. simpl flat_map. f_equal.
  unfold tagEvents in Hes. unfold entryCount. simpl in *.
  rewrite decide_True by done.
  destruct (outcome _) as [astMap| |]; [|done..].
  destruct (batchKeys _) as [keys| |] eqn:Hkeys; [|done..].
  injection Hes as <-.
  rewrite tagsFor_keys, (batchKeys_occurrences _ _ _ Hkeys).
  by rewrite (Hbatch tagName (map_to_list astMap)).
Qed.

Lemma events_declared ess key t :
  Forall2 (λ entry es, tagEvents s c relpath abspath entry = Some es)
    (order_tags s (map_to_list (classify s files (build.BuildTags ctxt))))
    ess →
  occurrences t (tagsFor key (concat ess))
  = declared s c files relpath abspath ctxt key t.
Proof.
  intros Hess.
  rewrite (events_count s c relpath abspath _ _ key t Hadm Hess).
  rewrite entryCount_sum by by apply scheduled_tags_NoDup.
  by rewrite scheduled_tags_to_map.
Qed.

Lemma events_nonempty ess :
  "" ∉ build.BuildTags ctxt →
  Forall2 (λ entry es, tagEvents s c relpath abspath entry = Some es)
    (order_tags s (map_to_list (classify s files (build.BuildTags ctxt))))
    ess →
  Forall (λ e, e.2 ≠ "") (concat ess).
Proof.
  intros Hnonempty Hess. apply Forall_forall. intros [k t] Hin Hempty.
  simpl in Hempty. subst t.
  destruct (events_tags _ _ _ _ _ _ _ _ Hess Hin) as (fileNames & Hentry).
  apply (scheduled_tags s files ctxt Hadm) in Hentry.
  by apply classify_allowed in Hentry.
Qed.

(** X7. The tag string of a key is the join, with the separator [", "],
    of the tags in the order in which the second loop visits them, each
    tag repeated once for every declaration of the key in the files of
    its group; a key that is declared in no group has no entry. *)
Theorem tag_string_in_visiting_order (m : gmap string string)
    (Hnonempty : "" ∉ build.BuildTags ctxt)
    (Hrun : outcome (mapIdentifierToBuildTag s c files relpath abspath ctxt)
            = Ok m) :
  ∀ key,
    m !! key
    = match tagsInOrder s c files relpath abspath ctxt key with
      | [] => None
      | ts => Some (String.concat ", " ts)
      end.
Proof.
  intros key.
  destruct (mapIdentifierToBuildTag_ok s c files relpath abspath ctxt Hadm
              m Hrun) as (ess & Hess & ->).
  rewrite replay_lookup by by apply events_nonempty.
  by rewrite (events_tagsFor _ _ key Hess).
Qed.

(** X8. No key of the map that is returned has an empty tag string, when
    the empty string is not an allowed tag. *)
Theorem tag_strings_not_empty (m : gmap string string)
    (Hnonempty : "" ∉ build.BuildTags ctxt)
    (Hrun : outcome (mapIdentifierToBuildTag s c files relpath abspath ctxt)
            = Ok m) :
  ∀ key tns, m !! key = Some tns → tns ≠ "".
Proof.
  intros key tns.
  destruct (mapIdentifierToBuildTag_ok s c files relpath abspath ctxt Hadm
              m Hrun) as (ess & Hess & ->).
  pose proof (events_nonempty ess Hnonempty Hess) as Hne.
  rewrite replay_lookup by done.
  destruct (tagsFor key (concat ess)) as [|t0 ts] eqn:Hts; [done|].
  intros [= <-]. apply concat_nonempty.
  assert (t0 ∈ tagsFor key (concat ess)) as Hin by (rewrite Hts; by left).
  apply elem_of_tagsFor in Hin.
  by apply (proj1 (Forall_forall _ _) Hne) in Hin.
Qed.

(** X9. The keys of the map that is returned are the keys declared in
    the files re-loaded for some tag: identifiers declared only in files
    without an allowed tag have no entry. *)
Theorem keys_are_declared_under_a_tag (m : gmap string string)
    (Hrun : outcome (mapIdentifierToBuildTag s c files relpath abspath ctxt)
            = Ok m) :
  ∀ key,
    is_Some (m !! key)
    ↔ ∃ tagName,
        (0 < declared s c files relpath abspath ctxt key tagName)%nat.
Proof.
  intros key.
  destruct (mapIdentifierToBuildTag_ok s c files relpath abspath ctxt Hadm
              m Hrun) as (ess & Hess & ->).
  rewrite replay_is_Some, lookup_empty. split.
  - intros [[? ?]|[t Ht]]; [done|]. exists t.
    rewrite <- (events_declared ess key t Hess).
    by apply occurrences_pos, elem_of_tagsFor.
  - intros [t Ht]. right. exists t.
    rewrite <- (events_declared ess key t Hess) in Ht.
    by apply occurrences_pos, elem_of_tagsFor in Ht.
Qed.

(** X10. A key that is declared once in the files of the group of one
    tag and in no file of any other group is mapped to exactly that
    tag. *)
Theorem single_declaration_single_tag (m : gmap string string)
    (key tagName : string)
    (Hnonempty : "" ∉ build.BuildTags ctxt)
    (Hrun : outcome (mapIdentifierToBuildTag s c files relpath abspath ctxt)
            = Ok m)
    (Hone : declared s c files relpath abspath ctxt key tagName = 1%nat)
    (Hothers : ∀ t, t ≠ tagName →
                 declared s c files relpath abspath ctxt key t = 0%nat) :
  m !! key = Some tagName.
Proof.
  destruct (mapIdentifierToBuildTag_ok s c files relpath abspath ctxt Hadm
              m Hrun) as (ess & Hess & ->).
  rewrite replay_lookup by by apply events_nonempty.
  rewrite (occurrences_single tagName (tagsFor key (concat ess))); [done|].
  intros t. rewrite (events_declared ess key t Hess).
  destruct (decide (t = tagName)) as [->|Hne]; [done|]. by apply Hothers.
Qed.

Lemma tagLoop_reads_ok tags m m' :
  outcome (tagLoop s c relpath abspath tags m) = Ok m' →
  reads (tagLoop s c relpath abspath tags m)
  = flat_map (λ entry, path_Join abspath <$> entry.2) tags.
Proof.
  revert m. induction tags as [|[tagName fileNames] tags IH]; intros m.
  - done.
  - rewrite tagLoop_cons_outcome, tagLoop_cons_reads.
    destruct (outcome (parseFiles c relpath abspath fileNames))
      as [astMap| |] eqn:Hload; cbn [rbind]; [|done..].
    destruct (parseFiles_from_ok _ _ _ _ _ _ Hload) as (Hreads & _).
    fold (parseFiles c relpath abspath fileNames) in Hreads.
    destruct (walkBatch _ _ _) as [m1| |]; cbn [rbind]; [|done..].
    intros Hrest. simpl flat_map. by rewrite Hreads, (IH _ Hrest).
Qed.

(** X11. A run that returns a map has read every file of every group,
    group by group in the order in which the tags are visited: a file is
    read once for each tag and each time it is listed in the group of
    the tag. *)
Theorem reads_of_a_successful_run (m : gmap string string)
    (Hrun : outcome (mapIdentifierToBuildTag s c files relpath abspath ctxt)
            = Ok m) :
  reads (mapIdentifierToBuildTag s c files relpath abspath ctxt)
  = groupPaths s files abspath ctxt.
Proof.
  revert Hrun. unfold mapIdentifierToBuildTag, groupPaths. cbv zeta.
  destruct (size _ =? 0)%nat eqn:Hsize.
  - apply Nat.eqb_eq, map_size_empty_iff in Hsize.
    rewrite Hsize, map_to_list_empty.
    destruct Hadm as (_ & Htags & _).
    pose proof (Htags []) as Hnil. apply Permutation_nil_r in Hnil.
    by rewrite Hnil.
  - apply tagLoop_reads_ok.
Qed.

Lemma parseFiles_from_all_ok names files0 :
  Forall (λ g, ∃ tree, loadOne c (path_Join abspath g) = Ok tree) names →
  ∃ astMap, outcome (parseFiles_from c relpath abspath names files0)
            = Ok astMap.
Proof.
  intros Hall. revert files0.
  induction Hall as [|g names [tree Hg] _ IH]; intros files0.
  - by exists files0.
  - rewrite parseFiles_from_cons, outcome_iobind.
    fold (loadOne c (path_Join abspath g)). rewrite Hg. cbn [rbind].
    apply IH.
Qed.

Lemma tagLoop_all_ok tags m :
  soundLibrary c →
  Forall (λ entry, Forall (λ g, ∃ tree, loadOne c (path_Join abspath g)
                                        = Ok tree) entry.2) tags →
  ∃ m', outcome (tagLoop s c relpath abspath tags m) = Ok m'.
Proof.
  intros Hsound Hall. revert m.
  destruct Hadm as (_ & _ & Hbatch).
  induction Hall as [|[tagName fileNames] tags Hentry _ IH]; intros m.
  - by exists m.
  - rewrite tagLoop_cons_outcome.
    destruct (parseFiles_from_all_ok fileNames ∅ Hentry) as [astMap Hok].
    fold (parseFiles c relpath abspath fileNames) in Hok.
    rewrite Hok. cbn [rbind]. rewrite walkBatch_keys.
    destruct (batchKeys_listed (order_batch s tagName (map_to_list astMap)))
      as [keys ->].
    { apply Forall_forall. intros [key tree].
      rewrite Hbatch, elem_of_map_to_list. intros Hkey.
      destruct (parseFiles_from_ok _ _ _ _ _ _ Hok) as (_ & _ & Hval).
      destruct (Hval key tree Hkey) as [Hempty|(f & _ & _ & Hf)].
      - by rewrite lookup_empty in Hempty.
      - by apply (loadOne_listed c _ _ Hsound Hf). }
    cbn [rbind]. apply IH.
Qed.

(** X12. When every file in which an allowed tag is found can be read
    and parsed from its base name under [abspath], and the file system
    and the parser do not panic, the mapper returns a map. *)
Theorem mapper_returns_when_files_load
    (Hsound : soundLibrary c)
    (Hload : taggedFilesLoad c files abspath ctxt) :
  ∃ m, outcome (mapIdentifierToBuildTag s c files relpath abspath ctxt)
       = Ok m.
Proof.
  unfold mapIdentifierToBuildTag. cbv zeta.
  destruct (size _ =? 0)%nat; [by eexists|].
  apply tagLoop_all_ok; [done|].
  apply Forall_forall. intros [tagName fileNames] Hentry.
  apply (scheduled_tags s files ctxt Hadm) in Hentry.
  apply Forall_forall. intros b Hb. simpl in Hb.
  destruct (classify_spec s files (build.BuildTags ctxt) tagName Hadm)
    as [_ Hin].
  specialize (Hin b). unfold filesOf in Hin. rewrite Hentry in Hin.
  apply Hin in Hb as (fName & fAst & Hf & Htag & ->).
  apply (Hload fName fAst Hf). intros Hnil. rewrite Hnil in Htag.
  by apply elem_of_nil in Htag.
Qed.

End MapperExtras.

Lemma tagLoop_batch_order `{GoLib} (s1 s2 : Schedule) (c : Corpus)
    (relpath abspath : string) tags m :
  admissible s1 → admissible s2 →
  tagLoop s1 c relpath abspath tags m = tagLoop s2 c relpath abspath tags m.
Proof.
  intros (_ & _ & Hb1) (_ & _ & Hb2). revert m.
  induction tags as [|[tagName fileNames] tags IH]; intros m; [done|].
  cbn [tagLoop]. apply iobind_ext. intros astMap.
  rewrite (walkBatch_Permutation tagName m
             (order_batch s1 tagName (map_to_list astMap))
             (order_batch s2 tagName (map_to_list astMap)))
    by (by rewrite Hb1, Hb2).
  apply iobind_ext. intros m'. apply IH.
Qed.

(** X13. The order in which the files of a batch are visited does not
    show in the result: two runs that visit [files] and [tagToFiles] in
    the same order read the same files and return the same map or the
    same error. *)
Theorem batch_order_is_irrelevant `{GoLib} (s1 s2 : Schedule) (c : Corpus)
    (files : gmap string ast.File) (relpath abspath : string)
    (ctxt : build.Context)
    (Hadm1 : admissible s1) (Hadm2 : admissible s2)
    (Hfiles : ∀ l, order_files s1 l = order_files s2 l)
    (Htags : ∀ l, order_tags s1 l = order_tags s2 l) :
  mapIdentifierToBuildTag s1 c files relpath abspath ctxt
  = mapIdentifierToBuildTag s2 c files relpath abspath ctxt.
Proof.
  unfold mapIdentifierToBuildTag. cbv zeta.
  assert (classify s1 files (build.BuildTags ctxt)
          = classify s2 files (build.BuildTags ctxt)) as ->
    by (unfold classify; by rewrite Hfiles).
  destruct (size _ =? 0)%nat; [done|].
  rewrite Htags. by apply tagLoop_batch_order.
Qed.

Lemma batchBackwards_admissible : admissible Concrete.batchBackwards.
Proof.
  repeat split; simpl; intros; try done. apply reverse_Permutation.
Qed.

Lemma TestCorpus_run :
  outcome (@mapIdentifierToBuildTag TestCorpus.golib Concrete.backwards
             TestCorpus.c TestCorpus.fast "" "/src" TestCorpus.ctxt)
  = Ok TestCorpus.tagMap.
Proof. vm_compute. reflexivity. Qed.

Lemma TestCorpus_nonempty : "" ∉ build.BuildTags TestCorpus.ctxt.
Proof.
  intros Hin.
  repeat (apply elem_of_cons in Hin as [Hin|Hin]; [discriminate Hin|]).
  by apply elem_of_nil in Hin.
Qed.

Lemma tag_string_in_visiting_order_witness :
  TestCorpus.tagMap !! "TestConst"
  = match @tagsInOrder TestCorpus.golib Concrete.backwards TestCorpus.c
            TestCorpus.fast "" "/src" TestCorpus.ctxt "TestConst" with
    | [] => None
    | ts => Some (String.concat ", " ts)
    end.
Proof.
  apply (@tag_string_in_visiting_order TestCorpus.golib Concrete.backwards
           TestCorpus.c TestCorpus.fast "" "/src" TestCorpus.ctxt
           backwards_admissible TestCorpus.tagMap TestCorpus_nonempty
           TestCorpus_run).
Defined.

Lemma tag_strings_not_empty_witness :
  TestCorpus.tagMap !! "First" = Some "xtag1" ∧ "xtag1" ≠ "".
Proof.
  assert (TestCorpus.tagMap !! "First" = Some "xtag1") as Hlook
    by (vm_compute; reflexivity).
  split; [exact Hlook|].
  exact (@tag_strings_not_empty TestCorpus.golib Concrete.backwards
           TestCorpus.c TestCorpus.fast "" "/src" TestCorpus.ctxt
           backwards_admissible TestCorpus.tagMap TestCorpus_nonempty
           TestCorpus_run "First" "xtag1" Hlook).
Defined.

Lemma keys_are_declared_under_a_tag_witness :
  is_Some (TestCorpus.tagMap !! "A.String")
  ↔ ∃ tagName,
      (0 < @declared TestCorpus.golib Concrete.backwards TestCorpus.c
             TestCorpus.fast "" "/src" TestCorpus.ctxt "A.String" tagName)%nat.
Proof.
  apply (@keys_are_declared_under_a_tag TestCorpus.golib Concrete.backwards
           TestCorpus.c TestCorpus.fast "" "/src" TestCorpus.ctxt
           backwards_admissible TestCorpus.tagMap TestCorpus_run).
Defined.

Lemma single_declaration_single_tag_witness :
  TestCorpus.tagMap !! "First" = Some "xtag1".
Proof.
  apply (@single_declaration_single_tag TestCorpus.golib Concrete.backwards
           TestCorpus.c TestCorpus.fast "" "/src" TestCorpus.ctxt
           backwards_admissible TestCorpus.tagMap "First" "xtag1"
           TestCorpus_nonempty TestCorpus_run).
  - vm_compute. reflexivity.
  - intros t Hne. unfold declared.
    destruct (@classify TestCorpus.golib Concrete.backwards TestCorpus.fast
                (build.BuildTags TestCorpus.ctxt) !! t)
      as [fileNames|] eqn:Hentry; [|reflexivity].
    pose proof (classify_allowed _ _ _ _ _ Hentry) as Hin.
    apply elem_of_cons in Hin as [Heq|Hin];
      [exfalso; apply Hne; exact Heq|].
    apply elem_of_cons in Hin as [Heq|Hin].
    { subst t. vm_compute in Hentry. injection Hentry as <-.
      vm_compute. reflexivity. }
    apply elem_of_cons in Hin as [Heq|Hin];
      [|exfalso; apply elem_of_nil in Hin; exact Hin].
    subst t. vm_compute in Hentry. injection Hentry as <-.
    vm_compute. reflexivity.
Defined.

Lemma reads_of_a_successful_run_witness :
  reads (@mapIdentifierToBuildTag TestCorpus.golib Concrete.backwards
           TestCorpus.c TestCorpus.fast "" "/src" TestCorpus.ctxt)
  = @groupPaths TestCorpus.golib Concrete.backwards TestCorpus.fast "/src"
      TestCorpus.ctxt.
Proof.
  apply (@reads_of_a_successful_run TestCorpus.golib Concrete.backwards
           TestCorpus.c TestCorpus.fast "" "/src" TestCorpus.ctxt
           backwards_admissible TestCorpus.tagMap TestCorpus_run).
Defined.

Lemma batch_order_is_irrelevant_witness :
  @mapIdentifierToBuildTag TestCorpus.golib Concrete.forwards TestCorpus.c
    TestCorpus.fast "" "/src" TestCorpus.ctxt
  = @mapIdentifierToBuildTag TestCorpus.golib Concrete.batchBackwards
      TestCorpus.c TestCorpus.fast "" "/src" TestCorpus.ctxt.
Proof.
  apply (@batch_order_is_irrelevant TestCorpus.golib Concrete.forwards
           Concrete.batchBackwards TestCorpus.c TestCorpus.fast "" "/src"
           TestCorpus.ctxt forwards_admissible batchBackwards_admissible).
  - reflexivity.
  - reflexivity.
Defined.

Lemma TestCorpus_listed tree :
  tree = TestCorpus.bar_go ∨ tree = TestCorpus.xtag1_go
  ∨ tree = TestCorpus.xtag2_go →
  listedFile tree.
Proof.
  intros [-> | [-> | ->]] decl Hin recv Hrecv;
    repeat (apply elem_of_cons in Hin as [Hin|Hin];
            [first [discriminate Hin
                   | injection Hin as ->; simpl in Hrecv;
                     first [discriminate Hrecv
                           | injection Hrecv as <-; discriminate]]|]);
    by apply elem_of_nil in Hin.
Qed.

Lemma TestCorpus_sound : @soundLibrary TestCorpus.golib TestCorpus.c.
Proof.
  split; [|split].
  - intros filename. unfold TestCorpus.c, Concrete.corpus. cbn [fs].
    by case_match.
  - intros filename src. simpl. unfold TestCorpus.trees.
    by repeat destruct (String.eqb filename _).
  - intros filename src tree. simpl. unfold TestCorpus.trees.
    repeat destruct (String.eqb filename _); intros [= <-];
      apply TestCorpus_listed; tauto.
Qed.

Lemma mapper_returns_when_files_load_witness :
  ∃ m, outcome (@mapIdentifierToBuildTag TestCorpus.golib Concrete.forwards
                  TestCorpus.c TestCorpus.fast "" "/src" TestCorpus.ctxt)
       = Ok m.
Proof.
  apply (@mapper_returns_when_files_load TestCorpus.golib Concrete.forwards
           TestCorpus.c TestCorpus.fast "" "/src" TestCorpus.ctxt
           forwards_admissible TestCorpus_sound).
  intros fName fAst Hf Hne. unfold TestCorpus.fast in Hf.
  apply elem_of_list_to_map_2 in Hf.
  apply elem_of_cons in Hf as [[= -> ->]|Hf].
  { exfalso. apply Hne. vm_compute. reflexivity. }
  apply elem_of_cons in Hf as [[= -> ->]|Hf].
  { eexists. vm_compute. reflexivity. }
  apply elem_of_cons in Hf as [[= -> ->]|Hf]; [|by apply elem_of_nil in Hf].
  eexists. vm_compute. reflexivity.
Defined.

(** ** How often a file is listed in a group *)

Section GroupCount.
Context `{GoLib}.

Lemma addFile_count (b : string) (bts : list string)
    (tagToFiles : gmap string (list string)) (tag x : string) :
  occurrences x
    (filesOf (foldl (λ tagToFiles bt,
                       let f := default [] (tagToFiles !! bt) in
                       let f := f ++ [b] in
                       <[bt := f]> tagToFiles) tagToFiles bts) tag)
  = (occurrences x (filesOf tagToFiles tag)
     + if decide (b = x) then occurrences tag bts else 0)%nat.
Proof.
  revert tagToFiles.
  induction bts as [|bt bts IH]; intros tagToFiles; cbn [foldl]; cbv zeta.
  - rewrite occurrences_nil. destruct (decide (b = x)); lia.
  - rewrite IH, occurrences_cons. unfold filesOf.
    destruct (decide (bt = tag)) as [->|Hne].
    + rewrite lookup_insert_eq. simpl.
      rewrite occurrences_app, occurrences_cons, occurrences_nil.
      destruct (decide (b = x)); lia.
    + rewrite lookup_insert_ne by done.
      destruct (decide (b = x)); lia.
Qed.

Lemma classify_fold_count allowed entries
    (tagToFiles : gmap string (list string)) (tag x : string) :
  occurrences x (filesOf (foldl (classifyFile allowed) tagToFiles entries) tag)
  = (occurrences x (filesOf tagToFiles tag)
     + mentions allowed tag x entries)%nat.
Proof.
  unfold mentions. revert tagToFiles.
  induction entries as [|[fName fAst] entries IH]; intros tagToFiles;
    cbn [foldl].
  - simpl. lia.
  - rewrite IH, classifyFile_fold, addFile_count, fmap_cons. simpl. lia.
Qed.

(** X14. A file is listed in the group of a tag once for every time the
    extractor returns the tag for it: the number of times a base name
    occurs in the group is the number of mentions of the tag, added up
    over the keys of [files] with that base name. *)
Theorem group_lists_file_per_mention (s : Schedule)
    (files : gmap string ast.File) (allowedBuildTags : list string)
    (tag b : string)
    (Hadm : admissible s) :
  occurrences b (filesOf (classify s files allowedBuildTags) tag)
  = mentions allowedBuildTags tag b (map_to_list files).
Proof.
  destruct Hadm as (Hfiles & _ & _). unfold classify.
  rewrite classify_fold_count. unfold filesOf at 1.
  rewrite lookup_empty. simpl. unfold mentions.
  by rewrite (Hfiles (map_to_list files)).
Qed.

End GroupCount.

Lemma group_lists_file_per_mention_witness :
  occurrences "x.go"
    (filesOf (@classify SameBase.golib Concrete.forwards SameBase.files
                ["linux"]) "linux")
  = @mentions SameBase.golib ["linux"] "linux" "x.go"
      (map_to_list SameBase.files).
Proof.
  apply (@group_lists_file_per_mention SameBase.golib Concrete.forwards
           SameBase.files ["linux"] "linux" "x.go" forwards_admissible).
Defined.

(** ** Where a failing run stops *)

Section FailFast.
Context `{GoLib}.
Variables (s : Schedule) (c : Corpus) (relpath abspath : string).

Lemma parseFiles_from_Err names files0 e :
  outcome (parseFiles_from c relpath abspath names files0) = Err e →
  ∃ npre f npost,
    names = npre ++ f :: npost
    ∧ Forall (λ g, ∃ tree, loadOne c (path_Join abspath g) = Ok tree) npre
    ∧ loadOne c (path_Join abspath f) = Err e.
Proof.
  revert files0. induction names as [|g names IH]; intros files0; [done|].
  rewrite parseFiles_from_cons, outcome_iobind.
  fold (loadOne c (path_Join abspath g)).
  destruct (loadOne c (path_Join abspath g)) as [tree|e'|] eqn:Hg;
    cbn [rbind]; [| |done].
  - intros (npre & f & npost & -> & Hpre & Hf)%IH.
    exists (g :: npre), f, npost. split; [done|]. split; [|done].
    apply Forall_cons. split; [by exists tree|done].
  - intros [= ->]. exists [], g, names. by repeat split.
Qed.

Lemma tagLoop_Err_reads tags m e :
  outcome (tagLoop s c relpath abspath tags m) = Err e →
  ∃ pre tagName fileNames post e0,
    tags = pre ++ (tagName, fileNames) :: post
    ∧ outcome (parseFiles c relpath abspath fileNames) = Err e0
    ∧ e = wrapError abspath fileNames e0
    ∧ reads (tagLoop s c relpath abspath tags m)
      = flat_map (λ entry, path_Join abspath <$> entry.2) pre
        ++ reads (parseFiles c relpath abspath fileNames).
Proof.
  revert m. induction tags as [|[tagName fileNames] tags IH]; intros m; [done|].
  rewrite tagLoop_cons_outcome, tagLoop_cons_reads.
  destruct (outcome (parseFiles c relpath abspath fileNames))
    as [astMap|e0|] eqn:Hload; cbn [rbind]; [| |done].
  - destruct (parseFiles_from_ok _ _ _ _ _ _ Hload) as (Hreads & _).
    fold (parseFiles c relpath abspath fileNames) in Hreads.
    destruct (walkBatch _ _ _) as [m1|e'|] eqn:Hwalk; cbn [rbind]; [| |done].
    + intros (pre & t & fs & post & e0 & -> & Hfail & -> & Hrest)%IH.
      exists ((tagName, fileNames) :: pre), t, fs, post, e0.
      repeat split; [done|]. simpl flat_map.
      by rewrite Hreads, Hrest, app_assoc.
    + rewrite walkBatch_keys in Hwalk.
      destruct (batchKeys _) as [keys|e''|] eqn:Hkeys; [done| |done].
      by apply batchKeys_not_Err in Hkeys.
  - intros [= <-]. exists [], tagName, fileNames, tags, e0.
    repeat split; [done|]. by rewrite app_nil_r.
Qed.

(** X15. When the mapper returns an error, it has read the files of the
    groups visited before the failing one, then the files of the failing
    group up to the first one that cannot be read or parsed, and nothing
    after it; the error is the error of that file, followed by [abspath]
    and the names of the failing group. *)
Theorem mapper_stops_at_first_failure (files : gmap string ast.File)
    (ctxt : build.Context) (e : string)
    (Hrun : outcome (mapIdentifierToBuildTag s c files relpath abspath ctxt)
            = Err e) :
  ∃ pre tagName fileNames post npre f npost e0,
    order_tags s (map_to_list (classify s files (build.BuildTags ctxt)))
      = pre ++ (tagName, fileNames) :: post
    ∧ fileNames = npre ++ f :: npost
    ∧ Forall (λ g, ∃ tree, loadOne c (path_Join abspath g) = Ok tree) npre
    ∧ loadOne c (path_Join abspath f) = Err e0
    ∧ e = wrapError abspath fileNames e0
    ∧ reads (mapIdentifierToBuildTag s c files relpath abspath ctxt)
      = flat_map (λ entry, path_Join abspath <$> entry.2) pre
        ++ (path_Join abspath <$> (npre ++ [f])).
Proof.
  revert Hrun. unfold mapIdentifierToBuildTag. cbv zeta.
  destruct (size _ =? 0)%nat; [done|].
  intros (pre & t & fileNames & post & e0 & Htags & Hfail & -> & Hreads)
    %tagLoop_Err_reads.
  destruct (parseFiles_from_Err _ _ _ Hfail) as (npre & f & npost & -> & Hpre & Hf).
  exists pre, t, (npre ++ f :: npost), post, npre, f, npost, e0.
  repeat split; try done.
  rewrite Hreads. f_equal. unfold parseFiles.
  by rewrite (parseFiles_from_fail c relpath abspath npre f npost ∅ e0 Hpre Hf).
Qed.

End FailFast.

Lemma mapper_stops_at_first_failure_witness :
  ∃ pre tagName fileNames post npre f npost e0,
    Concrete.forwards.(order_tags)
      (map_to_list (@classify TestCorpus.golib Concrete.forwards
                      TestCorpus.fast (build.BuildTags TestCorpus.ctxt)))
      = pre ++ (tagName, fileNames) :: post
    ∧ fileNames = npre ++ f :: npost
    ∧ Forall (λ g, ∃ tree, @loadOne TestCorpus.golib Variants.c_missing
                             (Concrete.join "/src" g) = Ok tree) npre
    ∧ @loadOne TestCorpus.golib Variants.c_missing (Concrete.join "/src" f)
      = Err e0
    ∧ "file does not exist" +:+ " in " +:+ Concrete.quote "/src"
        +:+ " with files: " +:+ fmt_strings ["xtag2.go"]
      = @wrapError TestCorpus.golib "/src" fileNames e0
    ∧ reads (@mapIdentifierToBuildTag TestCorpus.golib Concrete.forwards
               Variants.c_missing TestCorpus.fast "" "/src" TestCorpus.ctxt)
      = flat_map (λ entry, Concrete.join "/src" <$> entry.2) pre
        ++ (Concrete.join "/src" <$> (npre ++ [f])).
Proof.
  apply (@mapper_stops_at_first_failure TestCorpus.golib Concrete.forwards
           Variants.c_missing "" "/src" TestCorpus.fast TestCorpus.ctxt).
  vm_compute. reflexivity.
Defined.

(** ** The keys of a walk, with and without the text of the receiver *)


Section WalkKeys.
Context `{GoLib}.



End WalkKeys.


(** ** Files of the same base name *)

(** C9, as stated, fails: the keys [a/x.go] and [b/x.go] put [x.go]
    twice in the group of [linux], and the run reads [/src/x.go]
    twice. *)
Lemma same_base_name_listed_and_read_twice :
  ¬ ((occurrences "x.go"
        (filesOf (@classify SameBase.golib Concrete.forwards SameBase.files
                    (build.BuildTags SameBase.ctxt)) "linux") ≤ 1)%nat
     ∨ (occurrences "/src/x.go"
          (reads (@mapIdentifierToBuildTag SameBase.golib Concrete.forwards
                    SameBase.c SameBase.files "" "/src" SameBase.ctxt))
        ≤ 1)%nat).
Proof.
  assert (occurrences "x.go"
            (filesOf (@classify SameBase.golib Concrete.forwards
                        SameBase.files (build.BuildTags SameBase.ctxt))
                     "linux") = 2%nat) as Hgroup
    by (vm_compute; reflexivity).
  assert (occurrences "/src/x.go"
            (reads (@mapIdentifierToBuildTag SameBase.golib Concrete.forwards
                      SameBase.c SameBase.files "" "/src" SameBase.ctxt))
          = 2%nat) as Hreads
    by (vm_compute; reflexivity).
  rewrite Hgroup, Hreads. lia.
Qed.

Lemma occurrences_fmap_le (f : string → string) (x : string)
    (l : list string) :
  (occurrences x l ≤ occurrences (f x) (f <$> l))%nat.
Proof.
  induction l as [|y l IH]; [done|].
  rewrite fmap_cons, !occurrences_cons.
  destruct (decide (y = x)) as [->|Hne].
  - rewrite decide_True by done. lia.
  - destruct (decide (f y = f x)); lia.
Qed.

Lemma occurrences_flat_map_elem {A} (f : A → list string) (x : string)
    (a : A) (l : list A) :
  a ∈ l → (occurrences x (f a) ≤ occurrences x (flat_map f l))%nat.
Proof.
  induction l as [|b l IH]; [by intros ?%elem_of_nil|].
  simpl flat_map. rewrite occurrences_app.
  intros [->|Hin]%elem_of_cons; [lia|]. specialize (IH Hin). lia.
Qed.

Section BaseNames.
Context `{GoLib}.

Lemma addFile_group (b : string) (bts : list string)
    (tagToFiles : gmap string (list string)) (tag : string) :
  filesOf (foldl (λ tagToFiles bt,
                    let f := default [] (tagToFiles !! bt) in
                    let f := f ++ [b] in
                    <[bt := f]> tagToFiles) tagToFiles bts) tag
  = filesOf tagToFiles tag ++ replicate (occurrences tag bts) b.
Proof.
  revert tagToFiles.
  induction bts as [|bt bts IH]; intros tagToFiles; cbn [foldl]; cbv zeta.
  - rewrite occurrences_nil. simpl. by rewrite app_nil_r.
  - rewrite IH, occurrences_cons. unfold filesOf.
    destruct (decide (bt = tag)) as [->|Hne].
    + rewrite lookup_insert_eq. simpl. by rewrite <- app_assoc.
    + by rewrite lookup_insert_ne.
Qed.

Lemma classify_fold_group allowed entries
    (tagToFiles : gmap string (list string)) (tag : string) :
  filesOf (foldl (classifyFile allowed) tagToFiles entries) tag
  = filesOf tagToFiles tag
    ++ flat_map (λ entry,
                   replicate
                     (occurrences tag (findBuildTags entry.2 allowed).1)
                     (filepath_Base entry.1)) entries.
Proof.
  revert tagToFiles.
  induction entries as [|[fName fAst] entries IH]; intros tagToFiles;
    cbn [foldl].
  - simpl. by rewrite app_nil_r.
  - rewrite IH, classifyFile_fold, addFile_group. simpl flat_map.
    by rewrite <- app_assoc.
Qed.

Lemma mentions_two allowed tag (files : gmap string ast.File)
    fName1 fName2 fAst1 fAst2 :
  fName1 ≠ fName2 →
  files !! fName1 = Some fAst1 → files !! fName2 = Some fAst2 →
  tag ∈ (findBuildTags fAst1 allowed).1 →
  tag ∈ (findBuildTags fAst2 allowed).1 →
  filepath_Base fName1 = filepath_Base fName2 →
  (2 ≤ mentions allowed tag (filepath_Base fName1) (map_to_list files))%nat.
Proof.
  intros Hne Hf1 Hf2 Htag1 Htag2 Hbase.
  pose proof (map_to_list_delete files fName1 fAst1 Hf1) as Hp1.
  assert (delete fName1 files !! fName2 = Some fAst2) as Hf2'
    by (by rewrite lookup_delete_ne).
  pose proof (map_to_list_delete _ fName2 fAst2 Hf2') as Hp2.
  unfold mentions. rewrite <- Hp1, <- Hp2. rewrite !fmap_cons. simpl.
  rewrite decide_True by done. rewrite decide_True by done.
  apply occurrences_pos in Htag1, Htag2.
  unfold findBuildTags in Htag1, Htag2. simpl in Htag1, Htag2. lia.
Qed.

Lemma parseFiles_from_reads_prefix c relpath abspath names files0 :
  reads (parseFiles_from c relpath abspath names files0)
    `prefix_of` path_Join abspath <$> names.
Proof.
  revert files0.
  induction names as [|f names IH]; intros files0.
  - simpl. apply prefix_nil.
  - rewrite parseFiles_from_cons, reads_iobind, reads_parseFile, fmap_cons.
    simpl app. apply prefix_cons.
    destruct (outcome _) as [file| |]; [apply IH|apply prefix_nil..].
Qed.

Variables (s : Schedule) (c : Corpus) (files : gmap string ast.File).
Variables (relpath abspath : string) (ctxt : build.Context).
Hypothesis Hadm : admissible s.

Lemma tagLoop_reads_prefix tags m :
  reads (tagLoop s c relpath abspath tags m)
    `prefix_of` flat_map (λ entry, path_Join abspath <$> entry.2) tags.
Proof.
  revert m. induction tags as [|[tagName fileNames] tags IH]; intros m.
  - simpl. apply prefix_nil.
  - rewrite tagLoop_cons_reads. simpl flat_map.
    destruct (outcome (parseFiles c relpath abspath fileNames))
      as [astMap| |] eqn:Hload.
    + destruct (parseFiles_from_ok _ _ _ _ _ _ Hload) as (Hreads & _).
      fold (parseFiles c relpath abspath fileNames) in Hreads.
      rewrite Hreads. apply prefix_app.
      destruct (walkBatch _ _ _) as [m'| |]; [apply IH|apply prefix_nil..].
    + rewrite app_nil_r. apply prefix_app_r, parseFiles_from_reads_prefix.
    + rewrite app_nil_r. apply prefix_app_r, parseFiles_from_reads_prefix.
Qed.

Lemma tagLoop_first_read tags m p rest :
  flat_map (λ entry, path_Join abspath <$> entry.2) tags = p :: rest →
  ∃ rest', reads (tagLoop s c relpath abspath tags m) = p :: rest'.
Proof.
  destruct Hadm as (_ & _ & Hbatch).
  revert m. induction tags as [|[tagName fileNames] tags IH]; intros m.
  - done.
  - rewrite tagLoop_cons_reads. simpl flat_map.
    destruct fileNames as [|f fileNames].
    + simpl. rewrite map_to_list_empty.
      pose proof (Hbatch tagName []) as Hnil.
      apply Permutation_nil_r in Hnil. rewrite Hnil. simpl. apply IH.
    + unfold parseFiles.
      rewrite parseFiles_from_cons, reads_iobind, reads_parseFile, fmap_cons.
      simpl app. intros [= <- _]. eauto.
Qed.

Lemma group_count tag b :
  occurrences b (filesOf (classify s files (build.BuildTags ctxt)) tag)
  = mentions (build.BuildTags ctxt) tag b (map_to_list files).
Proof.
  destruct Hadm as (Hfiles & _ & _). unfold classify.
  rewrite classify_fold_count. unfold filesOf at 1.
  rewrite lookup_empty. simpl. unfold mentions.
  by rewrite (Hfiles (map_to_list files)).
Qed.

(** C9, amended. Files are identified by base name only.  The group of
    a tag lists the base name of a key of [files] once for every time
    the extractor returns the tag for its tree, in the order in which
    the keys are visited, and a tag has a group exactly when some tree
    mentions it.  The run reads the groups' base names joined onto
    [abspath], group by group: what it reads is always a prefix of that
    list, starts with its first path, and is the whole list when a map
    is returned.  A batch that loads has read each listed name joined
    onto [abspath], in order and as often as it is listed, and holds
    one tree for each distinct name joined onto [relpath].  Two
    different keys with the same base name whose trees mention a tag
    put that base name at least twice in the group of the tag; a run
    that returns a map has read the file of that name at least twice,
    and the batch of the tag holds an entry for it. *)
Theorem files_grouped_by_base_name :
  (∀ tagName,
     filesOf (classify s files (build.BuildTags ctxt)) tagName
     = flat_map (λ entry,
                   replicate
                     (occurrences tagName
                        (findBuildTags entry.2 (build.BuildTags ctxt)).1)
                     (filepath_Base entry.1))
         (order_files s (map_to_list files)))
  ∧ (∀ tagName,
       is_Some (classify s files (build.BuildTags ctxt) !! tagName)
       ↔ ∃ fName fAst,
           files !! fName = Some fAst
           ∧ tagName ∈ (findBuildTags fAst (build.BuildTags ctxt)).1)
  ∧ reads (mapIdentifierToBuildTag s c files relpath abspath ctxt)
      `prefix_of` groupPaths s files abspath ctxt
  ∧ (∀ p rest,
       groupPaths s files abspath ctxt = p :: rest →
       ∃ rest',
         reads (mapIdentifierToBuildTag s c files relpath abspath ctxt)
         = p :: rest')
  ∧ (∀ m,
       outcome (mapIdentifierToBuildTag s c files relpath abspath ctxt)
       = Ok m →
       reads (mapIdentifierToBuildTag s c files relpath abspath ctxt)
       = groupPaths s files abspath ctxt)
  ∧ (∀ fileNames astMap,
       outcome (parseFiles c relpath abspath fileNames) = Ok astMap →
       reads (parseFiles c relpath abspath fileNames)
       = path_Join abspath <$> fileNames
       ∧ dom astMap = list_to_set (path_Join relpath <$> fileNames)
       ∧ (∀ key tree,
            astMap !! key = Some tree →
            ∃ f, f ∈ fileNames ∧ key = path_Join relpath f
                 ∧ loadOne c (path_Join abspath f) = Ok tree))
  ∧ (∀ tagName fName1 fName2 fAst1 fAst2,
       fName1 ≠ fName2 →
       files !! fName1 = Some fAst1 → files !! fName2 = Some fAst2 →
       tagName ∈ (findBuildTags fAst1 (build.BuildTags ctxt)).1 →
       tagName ∈ (findBuildTags fAst2 (build.BuildTags ctxt)).1 →
       filepath_Base fName1 = filepath_Base fName2 →
       (2 ≤ occurrences (filepath_Base fName1)
              (filesOf (classify s files (build.BuildTags ctxt)) tagName))%nat
       ∧ (∀ m,
            outcome (mapIdentifierToBuildTag s c files relpath abspath ctxt)
            = Ok m →
            (2 ≤ occurrences (path_Join abspath (filepath_Base fName1))
                   (reads (mapIdentifierToBuildTag s c files relpath abspath
                             ctxt)))%nat)
       ∧ (∀ astMap,
            outcome (parseFiles c relpath abspath
                       (filesOf (classify s files (build.BuildTags ctxt))
                                tagName)) = Ok astMap →
            is_Some (astMap !! path_Join relpath (filepath_Base fName1)))).
Proof.
  assert (∀ m,
       outcome (mapIdentifierToBuildTag s c files relpath abspath ctxt)
       = Ok m →
       reads (mapIdentifierToBuildTag s c files relpath abspath ctxt)
       = groupPaths s files abspath ctxt) as Hall.
  { intros m. unfold mapIdentifierToBuildTag, groupPaths. cbv zeta.
    destruct (size _ =? 0)%nat eqn:Hsize.
    - apply Nat.eqb_eq, map_size_empty_iff in Hsize.
      rewrite Hsize, map_to_list_empty.
      destruct Hadm as (_ & Htags & _).
      pose proof (Htags []) as Hnil. apply Permutation_nil_r in Hnil.
      by rewrite Hnil.
    - apply tagLoop_reads_ok. }
  assert (∀ fileNames astMap,
       outcome (parseFiles c relpath abspath fileNames) = Ok astMap →
       ∀ key, is_Some (astMap !! key) ↔ key ∈ path_Join relpath <$> fileNames)
    as Hdom.
  { intros fileNames astMap Hok key.
    destruct (parseFiles_from_ok _ _ _ _ _ _ Hok) as (_ & Hdom & _).
    rewrite Hdom, lookup_empty. split; [|by right].
    intros [[? ?]|?]; done. }
  split.
  { intros tagName. unfold classify. rewrite classify_fold_group.
    unfold filesOf at 1. by rewrite lookup_empty. }
  split.
  { intros tagName.
    apply (classify_spec s files (build.BuildTags ctxt) tagName Hadm). }
  split.
  { unfold mapIdentifierToBuildTag, groupPaths. cbv zeta.
    destruct (size _ =? 0)%nat; [apply prefix_nil|].
    apply tagLoop_reads_prefix. }
  split.
  { intros p rest. unfold mapIdentifierToBuildTag, groupPaths. cbv zeta.
    destruct (size _ =? 0)%nat eqn:Hsize.
    - apply Nat.eqb_eq, map_size_empty_iff in Hsize.
      rewrite Hsize, map_to_list_empty.
      destruct Hadm as (_ & Htags & _).
      pose proof (Htags []) as Hnil. apply Permutation_nil_r in Hnil.
      by rewrite Hnil.
    - apply tagLoop_first_read. }
  split; [exact Hall|].
  split.
  { intros fileNames astMap Hok.
    destruct (parseFiles_from_ok _ _ _ _ _ _ Hok) as (Hreads & _ & Hval).
    split; [exact Hreads|]. split.
    - apply set_eq. intros key.
      rewrite elem_of_dom, elem_of_list_to_set.
      apply (Hdom _ _ Hok).
    - intros key tree Hkey.
      destruct (Hval key tree Hkey) as [Hempty|Hf]; [|exact Hf].
      by rewrite lookup_empty in Hempty. }
  intros tagName fName1 fName2 fAst1 fAst2 Hne Hf1 Hf2 Htag1 Htag2 Hbase.
  assert (2 ≤ occurrences (filepath_Base fName1)
                (filesOf (classify s files (build.BuildTags ctxt)) tagName))%nat
    as Htwice.
  { rewrite group_count. by eapply mentions_two. }
  split; [exact Htwice|]. split.
  - intros m Hrun. rewrite (Hall m Hrun). unfold groupPaths.
    assert (is_Some (classify s files (build.BuildTags ctxt) !! tagName))
      as [fileNames Hentry].
    { apply (classify_spec s files (build.BuildTags ctxt) tagName Hadm).
      by exists fName1, fAst1. }
    unfold filesOf in Htwice. rewrite Hentry in Htwice. simpl in Htwice.
    assert ((tagName, fileNames)
              ∈ order_tags s
                  (map_to_list (classify s files (build.BuildTags ctxt))))
      as Hin.
    { destruct Hadm as (_ & Htags & _).
      by rewrite Htags, elem_of_map_to_list. }
    pose proof (occurrences_flat_map_elem
                  (λ entry : string * list string,
                     path_Join abspath <$> entry.2)
                  (path_Join abspath (filepath_Base fName1))
                  _ _ Hin) as Hle.
    simpl in Hle.
    pose proof (occurrences_fmap_le (path_Join abspath)
                  (filepath_Base fName1) fileNames) as Hle'.
    lia.
  - intros astMap Hok. apply (Hdom _ _ Hok).
    apply list_elem_of_fmap. exists (filepath_Base fName1). split; [done|].
    apply occurrences_pos. lia.
Qed.

End BaseNames.

Lemma files_grouped_by_base_name_witness :
  (2 ≤ occurrences (Concrete.base "a/x.go")
         (filesOf (@classify SameBase.golib Concrete.forwards SameBase.files
                     (build.BuildTags SameBase.ctxt)) "linux"))%nat.
Proof.
  apply (proj2 (proj2 (proj2 (proj2 (proj2 (proj2
           (@files_grouped_by_base_name SameBase.golib Concrete.forwards
              SameBase.c SameBase.files "" "/src" SameBase.ctxt
              forwards_admissible))))))
           "linux" "a/x.go" "b/x.go" SameBase.x_go SameBase.x_go).
  - discriminate.
  - vm_compute. reflexivity.
  - vm_compute. reflexivity.
  - vm_compute. by left.
  - vm_compute. by left.
  - reflexivity.
Defined.
